(** * Shallow embedding of the reconstruction pipeline of [app/build3d.py]

    [Build3d.make_objfiles] and the methods of [Surface] it calls.
    Floating-point arithmetic is modelled by exact arithmetic: over [R] for
    the projection frame of [Surface.calc_basic_metrics] (it needs square
    roots), over [Q] for the distance matrix, the masking policies, the
    texture rasterization and the mesh emission (they only compare, add,
    subtract, multiply and divide). *)

From Stdlib Require Import Reals Lra Lia.
From Stdlib Require Import QArith Qabs Qminmax Qround Qpower Qreals.
From Stdlib Require Import String Ascii.
From Stdlib Require Import List Bool Arith ZArith.
Import ListNotations.
Local Open Scope nat_scope.

(* ------------------------------------------------------------------ *)
(** ** [Surface.calc_basic_metrics]: the projection frame, over [R] *)

Module Frame.
Local Open Scope R_scope.

Definition vec : Type := (R * R * R)%type.

Definition vsub (a b : vec) : vec :=
  let '(a0, a1, a2) := a in let '(b0, b1, b2) := b in (a0 - b0, a1 - b1, a2 - b2).

Definition vdiv (a : vec) (s : R) : vec :=
  let '(a0, a1, a2) := a in (a0 / s, a1 / s, a2 / s).

Definition dot (a b : vec) : R :=
  let '(a0, a1, a2) := a in let '(b0, b1, b2) := b in a0 * b0 + a1 * b1 + a2 * b2.

(** [np.cross] *)
Definition cross (a b : vec) : vec :=
  let '(a0, a1, a2) := a in let '(b0, b1, b2) := b in
  (a1 * b2 - a2 * b1, a2 * b0 - a0 * b2, a0 * b1 - a1 * b0).

(** [np.linalg.norm] *)
Definition norm (a : vec) : R := sqrt (dot a a).

Definition vzero : vec := (0, 0, 0).

(** numpy indexing [vertices[i]] and [vertices[-1]] on a non-empty list;
    out of range the source raises, the model reads [vzero]. *)
Definition at_ (vs : list vec) (i : nat) : vec := nth i vs vzero.
Definition at_last (vs : list vec) : vec := last vs vzero.

(** A 3x3 matrix stored by rows, as [np.array([(u0[0], u1[0], u2[0]), ...])]. *)
Definition mat : Type := (vec * vec * vec)%type.

Definition col (m : mat) (j : nat) : vec :=
  let '((a0, a1, a2), (b0, b1, b2), (c0, c1, c2)) := m in
  match j with
  | 0%nat => (a0, b0, c0)
  | 1%nat => (a1, b1, c1)
  | _ => (a2, b2, c2)
  end.

Record metrics := {
  origin : vec;
  projection_matrix : mat
}.

(** [calc_basic_metrics] on the vertices [ring[:-1]] of the face. *)
Definition calc_basic_metrics (ring_vertices : list vec) : metrics :=
  let o := at_ ring_vertices 0 in
  let vertices := map (fun v => vsub v o) ring_vertices in
  let v0 := vsub (at_ vertices 1) (at_ vertices 0) in
  let v1 := vsub (at_last vertices) (at_ vertices 0) in
  let v2 := cross v0 v1 in
  let v1 := cross v2 v0 in
  let '(x0, y0, z0) := vdiv v0 (norm v0) in
  let '(x1, y1, z1) := vdiv v1 (norm v1) in
  let '(x2, y2, z2) := vdiv v2 (norm v2) in
  {| origin := o;
     projection_matrix := ((x0, x1, x2), (y0, y1, y2), (z0, z1, z2)) |}.

(** The first edge [v1 - v0] and the closing edge [vLast - v0] of the ring. *)
Definition first_edge (vs : list vec) : vec := vsub (at_ vs 1) (at_ vs 0).
Definition closing_edge (vs : list vec) : vec := vsub (at_last vs) (at_ vs 0).

End Frame.

(* ------------------------------------------------------------------ *)
(** ** Exact-equality deduplication by [list.index] (the OBJ vertex and
    texture-coordinate lists of [make_objfiles]) *)

Section Dedup.
Variable A : Type.
(** Python's [==] on the tuples that are stored. *)
Variable eqb : A -> A -> bool.

(** [l.index(x)]: [Some] first position of an element equal to [x], [None]
    where the source raises [ValueError]. *)
Fixpoint index_of (x : A) (l : list A) : option nat :=
  match l with
  | [] => None
  | y :: r =>
      if eqb y x then Some 0
      else match index_of x r with Some p => Some (S p) | None => None end
  end.

(** [try: pos = lst.index(v) except ValueError: pos = len(lst); lst.append(v)] *)
Definition dedup_push (acc : list A) (x : A) : list A * nat :=
  match index_of x acc with
  | Some pos => (acc, pos)
  | None => (acc ++ [x], length acc)
  end.

(** The inner loop over one face: the indices of its elements, in order. *)
Fixpoint dedup_face (acc : list A) (xs : list A) : list A * list nat :=
  match xs with
  | [] => (acc, [])
  | x :: r =>
      let '(acc1, pos) := dedup_push acc x in
      let '(acc2, ps) := dedup_face acc1 r in
      (acc2, pos :: ps)
  end.

(** The outer loop over the faces, with ONE list [acc] shared by all faces. *)
Fixpoint dedup_faces (acc : list A) (faces : list (list A)) : list A * list (list nat) :=
  match faces with
  | [] => (acc, [])
  | f :: r =>
      let '(acc1, ps) := dedup_face acc f in
      let '(acc2, pss) := dedup_faces acc1 r in
      (acc2, ps :: pss)
  end.
End Dedup.

Arguments index_of {A} eqb x l.
Arguments dedup_push {A} eqb acc x.
Arguments dedup_face {A} eqb acc xs.
Arguments dedup_faces {A} eqb acc faces.

(* ------------------------------------------------------------------ *)
(** ** The pipeline of [make_objfiles], over [Q] *)

Module Pipeline.
Local Open Scope Q_scope.

(** Comparisons of numpy floats. *)
Definition qle (a b : Q) : bool := Qle_bool a b.
Definition qlt (a b : Q) : bool := negb (Qle_bool b a).

(** A point of the cloud projected on a face: [(x, y, z)] of
    [get_projected_points], [z] being the signed distance to the plane. *)
Record pt3 := mkpt { px : Q; py : Q; pz : Q }.

(** An RGB color of [pcd.colors], components in [0, 1]. *)
Definition rgb : Type := (Q * Q * Q)%type.

(** [self.boundary = [minx, miny, maxx, maxy]] *)
Record boundary := mkbnd { minx : Q; miny : Q; maxx : Q; maxy : Q }.

(** A [Surface] after [calc_basic_metrics]: its boundary, its projected
    vertices ([ring[:-1]] in face coordinates), and the projection of the
    shared point cloud on it ([get_projected_points()], one entry per point). *)
Record surface := mksurface {
  face_number : nat;
  sboundary : boundary;
  projected_vertices : list (Q * Q * Q);
  projected_points : list pt3
}.

(** The fields of [Build3d] that [make_objfiles] and [Surface] read. *)
Record build3d := mkbuild3d {
  bldid : string;
  lod : Z;
  dirname : string;
  gridsize : Q;                (** [self.gridsize] after [get_pointcloud] *)
  pcd_colors : list rgb        (** [np.asarray(pcd.colors)] *)
}.

(** [999.9] and [10.0] and [999.0] *)
Definition PENALTY : Q := 9999 # 10.
Definition MAX_DIST : Q := 10.
Definition NEAREST_LIMIT : Q := 999.

(** [outbound_mask = (x < minx) | (x > maxx) | (y < miny) | (y > maxy)] *)
Definition outbound (b : boundary) (p : pt3) : bool :=
  qlt (px p) (minx b) || qlt (maxx b) (px p) ||
  qlt (py p) (miny b) || qlt (maxy b) (py p).

(** [Surface.get_distance_matrix]: [|z| + outbound * 999.9] per point. *)
Definition get_distance_matrix (check_bounds : bool) (s : surface) : list Q :=
  map (fun p => Qabs (pz p) +
                 (if check_bounds && outbound (sboundary s) p then PENALTY else 0))
      (projected_points s).

(** [ndarray.min()] on a non-empty vector. *)
Fixpoint vmin (l : list Q) : Q :=
  match l with
  | [] => 0
  | [x] => x
  | x :: r => let m := vmin r in if qlt m x then m else x
  end.

(** [ndarray.max()] on a non-empty vector. *)
Fixpoint vmax (l : list Q) : Q :=
  match l with
  | [] => 0
  | [x] => x
  | x :: r => let m := vmax r in if qlt x m then m else x
  end.

(** The loop [for n, surface in enumerate(surfaces)] building
    [list_of_distances] and [nkmap]; [n] is the face number, [k] the next
    row number, [nsurf = len(surfaces)]. *)
Fixpoint distance_rows (lod : Z) (nsurf : nat) (n k : nat) (ss : list surface)
  : list (option nat) * list (list Q) :=
  match ss with
  | [] => ([], [])
  | s :: rest =>
      let distances := get_distance_matrix true s in
      match distances with
      | [] =>
          let '(nk, rows) := distance_rows lod nsurf (S n) k rest in
          (None :: nk, rows)
      | _ :: _ =>
          let distances :=
            if Z.eqb lod 1 && (Nat.eqb n 0 || Nat.eqb n (nsurf - 1))
            then map (fun d => d + PENALTY) distances else distances in
          if qlt MAX_DIST (vmin distances) then
            let '(nk, rows) := distance_rows lod nsurf (S n) k rest in
            (None :: nk, rows)
          else
            let '(nk, rows) := distance_rows lod nsurf (S n) (S k) rest in
            (Some k :: nk, distances :: rows)
      end
  end.

Definition distance_phase (lod : Z) (ss : list surface)
  : list (option nat) * list (list Q) :=
  distance_rows lod (length ss) 0 0 ss.

(** [np.argmin] of one column: the first row of minimal value. *)
Fixpoint argmin_from (l : list Q) (i best : nat) (bv : Q) : nat :=
  match l with
  | [] => best
  | x :: r => if qlt x bv then argmin_from r (S i) i x else argmin_from r (S i) best bv
  end.

Definition argmin (l : list Q) : nat :=
  match l with
  | [] => 0%nat
  | x :: r => argmin_from r 1 0 x
  end.

Definition column (rows : list (list Q)) (j : nat) : list Q :=
  map (fun r => nth j r 0) rows.

(** [nearest_face]: [None] for the Python [False] of an empty matrix,
    otherwise [np.argmin(distance_matrix, axis=0)]. *)
Definition nearest_faces (rows : list (list Q)) : option (list nat) :=
  match rows with
  | [] => None
  | r0 :: _ => Some (map (fun j => argmin (column rows j)) (seq 0 (length r0)))
  end.

(** A [mask] argument: the scalar booleans [True]/[False] or a boolean
    array with one entry per point. *)
Inductive mask :=
| MBool (b : bool)
| MArr (l : list bool).

(** The entry of a mask for point [j] (a scalar broadcasts). *)
Definition mask_at (m : mask) (j : nat) : bool :=
  match m with MBool b => b | MArr l => nth j l false end.

(** [mask & arr] for a boolean array [arr]; numpy broadcasts a scalar. *)
Definition mask_and (m : mask) (arr : list bool) : list bool :=
  match m with
  | MBool b => map (andb b) arr
  | MArr l => map (fun '(x, y) => andb x y) (combine l arr)
  end.

(** [nearest_face == k] with [k = nkmap[n]]: against [None] a numpy array
    compares all-[False] and the scalar [False] compares [False]; against
    an int [k], the scalar [False] equals [k] only when [k == 0]. *)
Definition eq_mask (nf : option (list nat)) (k : option nat) : mask :=
  match k, nf with
  | None, None => MBool false
  | None, Some l => MArr (map (fun _ => false) l)
  | Some k, None => MBool (Nat.eqb k 0)
  | Some k, Some l => MArr (map (Nat.eqb k) l)
  end.

(** [arr[mask]] for a boolean array mask; a scalar [False] selects
    nothing.  (A scalar [True] only arises when [nearest_face] is [False]
    and [k == 0], which [distance_rows] never produces: every [k] it
    records comes with a row.) *)
Definition select {X} (m : mask) (l : list X) : list X :=
  match m with
  | MBool false => []
  | MBool true => l
  | MArr bs => map snd (filter fst (combine bs l))
  end.

(** [texture_mapping_method == 'nearest']:
    [mask = (nearest_face == k) & (distance_matrix[k, :] < 999.0)]. *)
Definition nearest_mask (nkmap : list (option nat)) (rows : list (list Q))
    (nf : option (list nat)) (n : nat) : mask :=
  match nth n nkmap None with
  | None => MBool false
  | Some k =>
      MArr (mask_and (eq_mask nf (Some k))
                     (map (fun d => qlt d NEAREST_LIMIT) (nth k rows [])))
  end.

(** [z_range = (min(-1.0, max(-10.0, z.min())), max(1.0, z.max()))] *)
Definition z_range (zs : list Q) : Q * Q :=
  (Qmin (-1) (Qmax (-10) (vmin zs)), Qmax 1 (vmax zs)).

(** The default policy ([smart]) for face [n] of projection [pp]. *)
Definition smart_mask (nkmap : list (option nat)) (nf : option (list nat))
    (n : nat) (pp : list pt3) : mask :=
  let m := eq_mask nf (nth n nkmap None) in
  let filtered := select m pp in
  match filtered with
  | [] => MBool false
  | _ :: _ =>
      let '(lo, hi) := z_range (map pz filtered) in
      MArr (map (fun p => qle lo (pz p) && qle (pz p) hi) pp)
  end.

(** The value read by [surfaces[n]] out of range (the source raises). *)
Definition empty_surface (n : nat) : surface := mksurface n (mkbnd 0 0 0 0) [] [].

(** The [mask] passed to [create_texture_image] for face [n], per method. *)
Inductive method := All | Nearest | Smart.

Definition face_mask (meth : method) (lod : Z) (ss : list surface) (n : nat) : mask :=
  match meth with
  | All => MBool true
  | Nearest =>
      let '(nkmap, rows) := distance_phase lod ss in
      nearest_mask nkmap rows (nearest_faces rows) n
  | Smart =>
      let '(nkmap, rows) := distance_phase lod ss in
      smart_mask nkmap (nearest_faces rows) n
                 (projected_points (nth n ss (empty_surface n)))
  end.

(* ---- Texture creation: [Surface.create_texture_image] ---- *)

Definition pixel : Type := (Z * Z * Z)%type.
Definition GRAY : pixel := (128, 128, 128)%Z.

(** Files of the output directory, by path. *)
Inductive file :=
| PNG (rows : list (list pixel))
| PLY (points : list (pt3 * rgb)).

Definition fstore : Type := list (string * file).

Definition file_exists (fs : fstore) (path : string) : bool :=
  existsb (fun '(p, _) => String.eqb p path) fs.

(** [image.save(path)] / [o3d.io.write_point_cloud(path, ...)]: the file at
    [path] is created or overwritten. *)
Definition save (path : string) (f : file) (fs : fstore) : fstore :=
  (path, f) :: filter (fun '(p, _) => negb (String.eqb p path)) fs.

(** The file at [path], if any. *)
Definition lookup (fs : fstore) (path : string) : option file :=
  option_map snd (find (fun '(p, _) => String.eqb p path) fs).

(** [os.path.join(dirname, name)] for a directory name without trailing
    separator. *)
Definition path_join (d name : string) : string := (d ++ "/" ++ name)%string.

(** [Image.new('RGB', (4, 4), (128, 128, 128))] *)
Definition gray_placeholder : file := PNG (repeat (repeat GRAY 4) 4).

Definition NO_TEXTURE : string := "no_texture.png".

(** Decimal digits of a [nat], and the [{:03d}] format. *)
Fixpoint dec_aux (fuel n : nat) (acc : string) : string :=
  match fuel with
  | O => acc
  | S f =>
      let acc := String (ascii_of_nat (48 + n mod 10)) acc in
      if Nat.ltb n 10 then acc else dec_aux f (n / 10) acc
  end.
Definition dec (n : nat) : string := dec_aux (S n) n "".
Definition pad3 (n : nat) : string :=
  if Nat.ltb n 10 then ("00" ++ dec n)%string
  else if Nat.ltb n 100 then ("0" ++ dec n)%string else dec n.

(** [max(a, b, c)] of Python: the first of the maximal arguments. *)
Definition py_max3 (a b c : Q) : Q :=
  let m := if qlt a b then b else a in
  if qlt m c then c else m.

(** [gridsize = max((maxx - minx) / (imagesize - 1.0),
                    (maxy - miny) / (imagesize - 1.0), self.build3d.gridsize)] *)
Definition texture_gridsize (b3 : build3d) (bnd : boundary) (imagesize : Z) : Q :=
  py_max3 ((maxx bnd - minx bnd) / (inject_Z imagesize - 1))
          ((maxy bnd - miny bnd) / (inject_Z imagesize - 1))
          (gridsize b3).

Definition DEFAULT_IMAGESIZE : Z := 1024.

(** [(x >= minx) & (x <= maxx) & (y >= miny) & (y <= maxy)] *)
Definition in_bounds (b : boundary) (p : pt3) : bool :=
  qle (minx b) (px p) && qle (px p) (maxx b) &&
  qle (miny b) (py p) && qle (py p) (maxy b).

(** open3d's [voxel_down_sample(voxel_size=v)] (library code): voxel index
    [floor((p - (min_bound - v/2)) / v)] per axis, one point per occupied
    voxel with the mean position and the mean color of its points.  The
    order of the voxels (a hash map in open3d) is taken as first
    occurrence. *)
Definition voxel_key (v : Q) (lo : pt3) (p : pt3) : Z * Z * Z :=
  (Qfloor ((px p - (px lo - v / 2)) / v),
   Qfloor ((py p - (py lo - v / 2)) / v),
   Qfloor ((pz p - (pz lo - v / 2)) / v)).

Definition key_eqb (a b : Z * Z * Z) : bool :=
  let '(a0, a1, a2) := a in let '(b0, b1, b2) := b in
  Z.eqb a0 b0 && Z.eqb a1 b1 && Z.eqb a2 b2.

Definition min_bound (l : list (pt3 * rgb)) : pt3 :=
  mkpt (vmin (map (fun e => px (fst e)) l)) (vmin (map (fun e => py (fst e)) l))
       (vmin (map (fun e => pz (fst e)) l)).

Definition mean (l : list Q) : Q := fold_right Qplus 0 l / inject_Z (Z.of_nat (length l)).

Definition voxel_mean (l : list (pt3 * rgb)) : pt3 * rgb :=
  (mkpt (mean (map (fun e => px (fst e)) l)) (mean (map (fun e => py (fst e)) l))
        (mean (map (fun e => pz (fst e)) l)),
   (mean (map (fun e => fst (fst (snd e))) l), mean (map (fun e => snd (fst (snd e))) l),
    mean (map (fun e => snd (snd e)) l))).

Fixpoint voxel_keys (v : Q) (lo : pt3) (l : list (pt3 * rgb)) (seen : list (Z * Z * Z))
  : list (Z * Z * Z) :=
  match l with
  | [] => rev seen
  | e :: r =>
      let key := voxel_key v lo (fst e) in
      if existsb (key_eqb key) seen then voxel_keys v lo r seen
      else voxel_keys v lo r (key :: seen)
  end.

Definition voxel_down_sample (v : Q) (l : list (pt3 * rgb)) : list (pt3 * rgb) :=
  let lo := min_bound l in
  map (fun key => voxel_mean (filter (fun e => key_eqb key (voxel_key v lo (fst e))) l))
      (voxel_keys v lo l []).

(** [np.linspace(lo, hi, num)] *)
Definition linspace (lo hi : Q) (num : nat) : list Q :=
  match num with
  | O => []
  | S O => [lo]
  | S m =>
      map (fun i => lo + inject_Z (Z.of_nat i) * (hi - lo) / inject_Z (Z.of_nat m))
          (seq 0 num)
  end.

(** Python's [int()] on a float: truncation toward zero. *)
Definition py_int (q : Q) : Z := if qle 0 q then Qfloor q else (- Qfloor (- q))%Z.

(** [(c * 256).astype(np.uint8)] for a color component [c] in [0, 1]
    ([256] wraps to [0]). *)
Definition to_u8 (c : Q) : Z := Z.modulo (Qfloor (c * 256)) 256.

Definition to_pixel (c : rgb) : pixel :=
  let '(r, g, b) := c in (to_u8 r, to_u8 g, to_u8 b).

Definition dist2 (x y : Q) (s : Q * Q) : Q :=
  (fst s - x) * (fst s - x) + (snd s - y) * (snd s - y).

(** The sample of [xyarray] nearest to [(x, y)], as found by
    [griddata(..., method='nearest')] and [cKDTree.query]. *)
Definition nearest_index (xy : list (Q * Q)) (x y : Q) : nat :=
  argmin (map (dist2 x y) xy).

(** One pixel: the color of the nearest sample, overwritten with [128] when
    that sample is farther than [gridsize * 2] ([dist > 2g] iff
    [dist^2 > (2g)^2], as [g >= 0]). *)
Definition raster_cell (xy : list (Q * Q)) (colors : list rgb) (g x y : Q) : pixel :=
  let i := nearest_index xy x y in
  if qlt ((2 * g) * (2 * g)) (dist2 x y (nth i xy (0, 0))) then GRAY
  else to_pixel (nth i colors (0, 0, 0)).

(** The [rgbarray] of [create_texture_image]: rows over [new_ycoord],
    columns over [new_xcoord]. *)
Definition rgb_raster (xy : list (Q * Q)) (colors : list rgb) (b : boundary) (g : Q)
  : list (list pixel) :=
  let width := Z.to_nat (py_int ((maxx b - minx b) / g) + 1) in
  let height := Z.to_nat (py_int ((maxy b - miny b) / g) + 1) in
  map (fun y => map (fun x => raster_cell xy colors g x y)
                    (linspace (minx b) (maxx b) width))
      (linspace (miny b) (maxy b) height).

(** [Surface.create_texture_image(mask, imagesize, prefix, write_pointcloud)]
    on the output directory [fs]: the returned basename and the new
    directory contents. *)
Definition create_texture_image (b3 : build3d) (s : surface) (m : mask)
    (imagesize : option Z) (prefix : option string) (write_pointcloud : bool)
    (fs : fstore) : string * fstore :=
  let imagesize := match imagesize with Some i => i | None => DEFAULT_IMAGESIZE end in
  let bnd := sboundary s in
  let prefix := match prefix with Some (String _ _ as p) => p | _ => bldid b3 end in
  let g := texture_gridsize b3 bnd imagesize in
  let pp := projected_points s in
  let fm := mask_and m (map (in_bounds bnd) pp) in
  if negb (existsb (fun x => x) fm) then
    let path := path_join (dirname b3) NO_TEXTURE in
    (NO_TEXTURE, if file_exists fs path then fs else save path gray_placeholder fs)
  else
    let filtered_points := select (MArr fm) pp in
    let filtered_colors := select (MArr fm) (pcd_colors b3) in
    let new_pcd := combine filtered_points filtered_colors in
    let new_pcd := if qlt (gridsize b3 * 2) g then voxel_down_sample g new_pcd
                   else new_pcd in
    let fs := if write_pointcloud
              then save (path_join (dirname b3)
                           (prefix ++ "_" ++ pad3 (face_number s) ++ ".ply"))
                        (PLY new_pcd) fs
              else fs in
    let xyarray := map (fun p => (px p, py p)) filtered_points in
    let rgbarray := rgb_raster xyarray filtered_colors bnd g in
    let name := (prefix ++ "_" ++ pad3 (face_number s) ++ ".png")%string in
    (name, save (path_join (dirname b3) name) (PNG rgbarray) fs).

(* ---- Mesh emission: the OBJ file of [make_objfiles] ---- *)

Definition qeq3 (a b : Q * Q * Q) : bool :=
  let '(a0, a1, a2) := a in let '(b0, b1, b2) := b in
  Qeq_bool a0 b0 && Qeq_bool a1 b1 && Qeq_bool a2 b2.

Definition qeq2 (a b : Q * Q) : bool :=
  let '(a0, a1) := a in let '(b0, b1) := b in Qeq_bool a0 b0 && Qeq_bool a1 b1.

(** [round(x, 3)]: to the nearest multiple of [0.001], ties to even. *)
Definition round3 (x : Q) : Q :=
  let y := x * 1000 in
  let f := Qfloor y in
  let r := y - inject_Z f in
  let z := if qlt r (1 # 2) then f
           else if qlt (1 # 2) r then (f + 1)%Z
           else if Z.even f then f else (f + 1)%Z in
  inject_Z z / 1000.

(** [texture_coord] of each projected vertex of a surface. *)
Definition texcoords (s : surface) : list (Q * Q) :=
  let b := sboundary s in
  let width := maxx b - minx b in
  let height := maxy b - miny b in
  map (fun '(u, v, _) => (round3 ((u - minx b) / width),
                          round3 (1 - (v - miny b) / height)))
      (projected_vertices s).

(** The [f v/vt/vn ...] line of face [n]: 1-based indices. *)
Definition face_line (n : nat) (verts vts : list nat) : list (nat * nat * nat) :=
  map (fun i => (S (nth i verts 0%nat), S (nth i vts 0%nat), S n))
      (seq 0 (length verts)).

Record obj := mkobj {
  obj_vertices : list (Q * Q * Q);   (** [v] lines *)
  obj_texcoords : list (Q * Q);      (** [vt] lines *)
  obj_faces : list (list (nat * nat * nat))  (** [f] lines *)
}.

(** [make_objfiles] on the rings of the faces ([face.exterior.coords],
    closing vertex included) and their surfaces. *)
Definition make_obj (rings : list (list (Q * Q * Q))) (ss : list surface) : obj :=
  let '(all_vertices, face_vertices) := dedup_faces qeq3 [] (map (@removelast _) rings) in
  let '(vt_list, vt_index) := dedup_faces qeq2 [] (map texcoords ss) in
  mkobj all_vertices vt_list
        (map (fun n => face_line n (nth n face_vertices []) (nth n vt_index []))
             (seq 0 (length face_vertices))).

(* ---- Projection of a point cloud on a face ---- *)




End Pipeline.

(** * Map sheet codes ([zukaku.py])

    Python strings are lists of code points ([ord]), so that [chr] of any
    integer is represented. *)

Module Zukaku.
Local Open Scope Z_scope.

Definition pystr : Type := list Z.

Fixpoint digits_aux (fuel : nat) (n : Z) (acc : pystr) : pystr :=
  match fuel with
  | O => acc
  | S f =>
      let acc := (48 + n mod 10) :: acc in
      if n <? 10 then acc else digits_aux f (n / 10) acc
  end.

Definition digits (n : Z) : pystr := digits_aux (S (Z.to_nat (Z.log2 n))) n [].

Definition fmt_d (width : nat) (zero : bool) (n : Z) : pystr :=
  let ds := digits (Z.abs n) in
  let sign := if n <? 0 then [45] else [] in
  let padlen := (width - length sign - length ds)%nat in
  if zero then sign ++ repeat 48 padlen ++ ds else repeat 32 padlen ++ sign ++ ds.

Definition is_digit (c : Z) : bool := (48 <=? c) && (c <=? 57).
Definition is_upper (c : Z) : bool := (65 <=? c) && (c <=? 90).
Definition is_num_char (c : Z) : bool := is_digit c || ((65 <=? c) && (c <=? 84)).

Fixpoint take_while (p : Z -> bool) (l : pystr) : pystr :=
  match l with
  | [] => []
  | c :: r => if p c then c :: take_while p r else []
  end.

Definition match_rest (s : pystr) : option (pystr * pystr) :=
  match s with
  | a :: b :: r => if is_upper a && is_upper b then Some ([a; b], take_while is_num_char r)
                   else None
  | _ => None
  end.

Definition re_match (code : pystr) : option (option pystr * pystr * pystr) :=
  let without := option_map (fun '(k, n) => (None, k, n)) (match_rest code) in
  match code with
  | d1 :: d2 :: r =>
      if is_digit d1 && is_digit d2 then
        match match_rest r with
        | Some (k, n) => Some (Some [d1; d2], k, n)
        | None => without
        end
      else without
  | _ => without
  end.

Definition int_of_digits (s : pystr) : Z := fold_left (fun a c => a * 10 + (c - 48)) s 0.

Definition EPSG : pystr := [69; 80; 83; 71; 58].

Section Extent.
Local Open Scope Q_scope.

Definition get_extent (code : pystr) : option (Q * Q * Q * Q * option pystr * Q) :=
  match re_match code with
  | None => None
  | Some (system_code, kukaku, numbers) =>
      let ch i := nth i numbers 0%Z in
      let len := length numbers in
      let x0 := inject_Z ((-160 + (nth 1 kukaku 0 - 65) * 40) * 1000)%Z in
      let y0 := inject_Z ((300 - (nth 0 kukaku 0 - 65) * 30) * 1000)%Z in
      let '(x0, y0, dx, dy, level) := (x0, y0, 40000, 30000, 50000) in
      let '(x0, y0, dx, dy, level) :=
        if (2 <=? len)%nat then
          (x0 + inject_Z ((ch 1%nat - 48) * 4000)%Z, y0 - inject_Z ((ch 0%nat - 48) * 3000)%Z,
           4000, 3000, 5000)
        else (x0, y0, dx, dy, level) in
      let '(x0, y0, dx, dy, level) :=
        if (len =? 3)%nat then
          (if existsb (Z.eqb (ch 2%nat)) [50; 52]%Z then x0 + 2000 else x0,
           if existsb (Z.eqb (ch 2%nat)) [51; 52]%Z then y0 - 1500 else y0,
           2000, 1500, 2500)
        else (x0, y0, dx, dy, level) in
      let '(x0, y0, dx, dy, level) :=
        if (4 <=? len)%nat then
          if ((48 <=? ch 2%nat) && (ch 2%nat <? 58))%Z then
            if ((65 <=? ch 3%nat) && (ch 3%nat <? 70))%Z then
              (x0 + inject_Z ((ch 3%nat - 65) * 800)%Z, y0 - inject_Z ((ch 2%nat - 48) * 600)%Z,
               800, 600, 1000)
            else if ((48 <=? ch 3%nat) && (ch 3%nat <? 58))%Z then
              (x0 + inject_Z ((ch 3%nat - 48) * 400)%Z, y0 - inject_Z ((ch 2%nat - 48) * 300)%Z,
               400, 300, 500)
            else (x0, y0, dx, dy, level)
          else if ((65 <=? ch 2%nat) && (ch 2%nat <? 85))%Z then
            (x0 + inject_Z ((ch 3%nat - 65) * 200)%Z, y0 - inject_Z ((ch 2%nat - 65) * 150)%Z,
             200, 150, 250)
          else (x0, y0, dx, dy, level)
        else (x0, y0, dx, dy, level) in
      (* [ord(numbers[4]) in ('2', '4')] compares an int with strings: never true *)
      let '(x0, y0, dx, dy, level) :=
        if (len =? 5)%nat then (x0, y0, dx / 2, dy / 2, level / 2)
        else (x0, y0, dx, dy, level) in
      let '(x0, y0, dx, dy, level) :=
        if (len =? 6)%nat then
          if ((48 <=? ch 4%nat) && (ch 4%nat <? 58))%Z then
            if ((65 <=? ch 5%nat) && (ch 5%nat <? 70))%Z then
              let dx := dx / 5 in let dy := dy / 5 in
              (x0 + inject_Z (ch 5%nat - 65)%Z * dx, y0 - inject_Z (ch 4%nat - 48)%Z * dy,
               dx, dy, level / 5)
            else if ((48 <=? ch 5%nat) && (ch 5%nat <? 58))%Z then
              let dx := dx / 10 in let dy := dy / 10 in
              (x0 + inject_Z (ch 5%nat - 48)%Z * dx, y0 - inject_Z (ch 4%nat - 48)%Z * dy,
               dx, dy, level / 10)
            else (x0, y0, dx, dy, level)
          else if ((65 <=? ch 4%nat) && (ch 4%nat <? 85))%Z then
            let dx := dx / 20 in let dy := dy / 20 in
            (x0 + inject_Z (ch 5%nat - 65)%Z * dx, y0 - inject_Z (ch 4%nat - 65)%Z * dy,
             dx, dy, level / 20)
          else (x0, y0, dx, dy, level)
        else (x0, y0, dx, dy, level) in
      let crs := match system_code with
                 | Some s => Some (EPSG ++ fmt_d 4 false (6668 + int_of_digits s)%Z)
                 | None => None
                 end in
      Some (x0, y0 - dy, x0 + dx, y0, crs, level)
  end.

End Extent.

Definition get_code (x y : Q) (system_code : option Z) (level : Z) : option pystr :=
  if Pipeline.qle 160000 (Qabs x) || Pipeline.qle 300000 (Qabs y) then None else
  let code := match system_code with
              | Some sc => if sc =? 0 then [] else fmt_d 2 true sc
              | None => []
              end in
  let x := Pipeline.py_int x in
  let y := Pipeline.py_int (- y) in
  let code := code ++ [75 + y / 30000; 69 + x / 40000] in
  if 5000 <? level then Some code else
  let x := x mod 40000 in
  let y := y mod 30000 in
  let code := code ++ [48 + y / 3000; 48 + x / 4000] in
  if 2500 <? level then Some code else
  let x := x mod 4000 in
  let y := y mod 3000 in
  if level =? 2500 then
    Some (code ++ [if x <? 2000 then (if y <? 1500 then 49 else 51)
                   else (if y <? 1500 then 50 else 52)])
  else if level =? 1000 then Some (code ++ [548 + y / 600; 65 + x / 800])
  else if level =? 250 then Some (code ++ [65 + y / 150; 65 + x / 200])
  else
  let code := code ++ [48 + y / 300; 48 + x / 400] in
  if level =? 500 then Some code else
  let x := x mod 400 in
  let y := y mod 300 in
  if level =? 50 then Some (code ++ [48 + y / 30; 48 + x / 40]) else None.

End Zukaku.

Module Textures.
Import Pipeline.

(** The texture loop of [make_objfiles]:
    [texture_images[n] = surface.create_texture_image(prefix=prefix, mask=mask,
    imagesize=imagesize)] for each face in order ([write_pointcloud] keeps its
    default [False]); the masks are those of the chosen method. *)
Fixpoint texture_images (b3 : build3d) (ms : list mask) (ss : list surface)
    (imagesize : option Z) (prefix : option string) (fs : fstore)
  : list string * fstore :=
  match ss, ms with
  | s :: r, m :: mr =>
      let '(name, fs1) := create_texture_image b3 s m imagesize prefix false fs in
      let '(names, fs2) := texture_images b3 mr r imagesize prefix fs1 in
      (name :: names, fs2)
  | _, _ => ([], fs)
  end.

End Textures.

Module NearWalls.
Import Pipeline.
Local Open Scope Q_scope.

(** The loop of [count_points_near_walls] over [enumerate(surfaces)]: the
    distance vectors kept in [list_of_distances], [None] where
    [distances.min()] raises on an empty vector. *)
Fixpoint near_wall_rows (lod : Z) (nsurf n : nat) (ss : list surface) (threshold : Q)
  : option (list (list Q)) :=
  match ss with
  | [] => Some []
  | s :: rest =>
      let distances := get_distance_matrix true s in
      let distances :=
        if Z.eqb lod 1 && (Nat.eqb n 0 || Nat.eqb n (nsurf - 1))
        then map (fun d => d + PENALTY) distances else distances in
      match distances with
      | [] => None
      | _ :: _ =>
          if qlt threshold (vmin distances) then near_wall_rows lod nsurf (S n) rest threshold
          else option_map (cons distances) (near_wall_rows lod nsurf (S n) rest threshold)
      end
  end.

(** [Build3d.count_points_near_walls(threshold)] on a cloud of [npoints]
    points and the building's surfaces. *)
Definition count_points_near_walls (lod : Z) (npoints : nat) (ss : list surface)
    (threshold : Q) : option nat :=
  if Nat.eqb npoints 0 then Some 0%nat else
  match near_wall_rows lod (length ss) 0 ss threshold with
  | None => None
  | Some [] => Some 0%nat
  | Some ((r0 :: _) as rows) =>
      Some (length (filter (fun j => qle (vmin (column rows j)) threshold)
                           (seq 0 (length r0))))
  end.

End NearWalls.

Module PointCloud.
Import Pipeline.
Local Open Scope Q_scope.

(** A point record of a LAS file: coordinates, [intensity] and the 16-bit
    [red], [green], [blue] (read only where the point format has them). *)
Record lasrec := mklasrec {
  lx : Q; ly : Q; lz : Q;
  lintensity : Z; lred : Z; lgreen : Z; lblue : Z
}.

(** A LAS file as [laspy.open] reads it: whether its point format has the
    [red], [green] and [blue] dimensions (formats 2, 3, 5, 7, 8 and 10 do;
    0, 1, 4, 6 and 9 do not), and its chunks as read by
    [chunk_iterator(10000)]. *)
Record lasfile := mklasfile {
  has_rgb : bool;
  chunks : list (list lasrec)
}.

(** The LAS files on disk, by name. *)
Definition lasdir : Type := list (string * lasfile).

(** [os.path.exists(filename)] and [laspy.open(filename)]. *)
Definition las_open (d : lasdir) (name : string) : option lasfile :=
  option_map snd (find (fun '(n, _) => String.eqb n name) d).

(** A row of [point_stack]: [x, y, z, intensity, red / 65536.0,
    green / 65536.0, blue / 65536.0]. *)
Record lasrow := mklasrow {
  rx : Q; ry : Q; rz : Q; rint : Q; rr : Q; rg : Q; rb : Q
}.

Definition to_row (p : lasrec) : lasrow :=
  mklasrow (lx p) (ly p) (lz p) (inject_Z (lintensity p))
           (inject_Z (lred p) / 65536) (inject_Z (lgreen p) / 65536)
           (inject_Z (lblue p) / 65536).

(** [(x >= boundary[0]) & (x <= boundary[2]) & (y >= boundary[1]) & (y <= boundary[3])] *)
Definition in_area (b : boundary) (p : lasrec) : bool :=
  qle (minx b) (lx p) && qle (lx p) (maxx b) && qle (miny b) (ly p) && qle (ly p) (maxy b).

(** One chunk of a file whose point format has RGB iff [rgb]: skipped when
    no point is selected, else stacked; the outer [None] is the
    [AttributeError] raised by [points.red] in a format without RGB. *)
Definition read_chunk (b : boundary) (rgb : bool) (ps : option (list lasrow))
    (chunk : list lasrec) : option (option (list lasrow)) :=
  let mask := map (in_area b) chunk in
  if negb (existsb (fun x => x) mask) then Some ps
  else if negb rgb then None
  else
    let new_array := map to_row (filter (in_area b) chunk) in
    match ps with
    | None => Some (Some new_array)
    | Some st => Some (Some (st ++ new_array))
    end.

(** [for points in f.chunk_iterator(10000)], stopping at an exception. *)
Fixpoint read_chunks (b : boundary) (rgb : bool) (cs : list (list lasrec))
    (ps : option (list lasrow)) : option (option (list lasrow)) :=
  match cs with
  | [] => Some ps
  | c :: r =>
      match read_chunk b rgb ps c with
      | None => None
      | Some ps => read_chunks b rgb r ps
      end
  end.

(** [for filename in lasfiles]: missing files are skipped. *)
Fixpoint read_files (b : boundary) (lasfiles : list string) (d : lasdir)
    (ps : option (list lasrow)) : option (option (list lasrow)) :=
  match lasfiles with
  | [] => Some ps
  | name :: r =>
      match las_open d name with
      | None => read_files b r d ps
      | Some f =>
          match read_chunks b (has_rgb f) (chunks f) ps with
          | None => None
          | Some ps => read_files b r d ps
          end
      end
  end.

(** [read_lasfiles(boundary, lasfiles)]: the outer [None] where it raises,
    [Some None] for the [None] returned when no point was read. *)
Definition read_lasfiles (b : boundary) (lasfiles : list string) (d : lasdir)
  : option (option (list lasrow)) :=
  read_files b lasfiles d None.

(** [crop_las(boundary, lasfiles)]: the points and their colors, [None]
    where it raises; the color schema is detected on the first row. *)
Definition crop_las (b : boundary) (lasfiles : list string) (d : lasdir)
  : option (list (pt3 * rgb)) :=
  match read_lasfiles b lasfiles d with
  | None => None
  | Some None => Some []
  | Some (Some las_array) =>
      let points := map (fun r => mkpt (rx r) (ry r) (rz r)) las_array in
      let first := hd (mklasrow 0 0 0 0 0 0 0) las_array in
      let colors :=
        if qlt 0 (rr first + rg first + rb first)
        then map (fun r => (rr r, rg r, rb r)) las_array
        else map (fun r => (rint r, rint r, rint r)) las_array in
      Some (combine points colors)
  end.

(** The downsampling loop of [Build3d.get_pointcloud] on the cropped
    cloud [pcd]: [(self.pcd, self.gridsize)] at its exit; [fuel] bounds
    the number of iterations. *)
Definition GRIDSIZE : Q := 1 # 100.
Definition GRID_FACTOR : Q := 141421356 # 100000000.

Fixpoint downsample_loop (fuel : nat) (pcd down : list (pt3 * rgb)) (limit : Z)
    (g self_gridsize : Q) : option (list (pt3 * rgb) * Q) :=
  match fuel with
  | O => None
  | S f =>
      if (0 <? limit)%Z && (limit <? Z.of_nat (length down))%Z
      then downsample_loop f pcd (voxel_down_sample g pcd) limit (g * GRID_FACTOR) g
      else Some (down, self_gridsize)
  end.

Definition get_pointcloud_tail (fuel : nat) (pcd : list (pt3 * rgb)) (limit : Z)
  : option (list (pt3 * rgb) * Q) :=
  downsample_loop fuel pcd pcd limit GRIDSIZE GRIDSIZE.

End PointCloud.

Module Area.
Import Zukaku.
Local Open Scope Z_scope.

Definition LEVELS : list Z := [50000; 5000; 2500; 1000; 500; 250; 50].

(** The inner loop of [get_codes_in_area]: one column of sheets, from [y]
    up to the first [y > y1] included; [fuel] bounds the iterations. *)
Fixpoint codes_column (fuel : nat) (x y y1 dy : Q) (sc : option Z) (level : Z)
  : option (list pystr) :=
  match fuel with
  | O => None
  | S f =>
      match get_code x y sc level with
      | None => None
      | Some c =>
          if Pipeline.qlt y1 y then Some [c]
          else option_map (cons c) (codes_column f x (y + dy)%Q y1 dy sc level)
      end
  end.

(** The outer loop: the columns from [x] up to the first [x > x1]
    included. *)
Fixpoint codes_rows (fuel fuel_y : nat) (x x1 y0 y1 dx dy : Q) (sc : option Z) (level : Z)
  : option (list pystr) :=
  match fuel with
  | O => None
  | S f =>
      match codes_column fuel_y x y0 y1 dy sc level with
      | None => None
      | Some cs =>
          if Pipeline.qlt x1 x then Some cs
          else option_map (app cs) (codes_rows f fuel_y (x + dx)%Q x1 y0 y1 dx dy sc level)
      end
  end.

(** [get_codes_in_area(x0, y0, x1, y1, system_code, level)]; [None] where
    it raises, or when [fuel] iterations of a loop do not suffice. *)
Definition get_codes_in_area (fuel : nat) (x0 y0 x1 y1 : Q) (sc : option Z) (level : Z)
  : option (list pystr) :=
  if negb (existsb (Z.eqb level) LEVELS) then None else
  let dx := (inject_Z (40000 * level) / 50000)%Q in
  let dy := (inject_Z (30000 * level) / 50000)%Q in
  let '(x0, x1) := if Pipeline.qlt x1 x0 then (x1, x0) else (x0, x1) in
  let '(y0, y1) := if Pipeline.qlt y1 y0 then (y1, y0) else (y0, y1) in
  codes_rows fuel fuel x0 x1 y0 y1 dx dy sc level.

End Area.

Module Build3dInit.
Import Zukaku.
Local Open Scope Z_scope.

(** The [system_code] check and [self.crs] of [Build3d.__init__]:
    [None] where it raises [ValueError]. *)
Definition build3d_crs (system_code : Z) : option pystr :=
  if (system_code <? 0) || (system_code >? 19) then None
  else Some (EPSG ++ fmt_d 0 false (6668 + system_code)).

End Build3dInit.

(* ================================================================== *)
(** * Properties *)

(** ** The projection frame *)

Module FrameFacts.
Import Frame.
Local Open Scope R_scope.

Lemma dot_pos a : a <> vzero -> 0 < dot a a.
Proof.
  destruct a as [[a0 a1] a2]; simpl; intro H.
  destruct (Req_dec a0 0), (Req_dec a1 0), (Req_dec a2 0); subst;
    try (exfalso; apply H; reflexivity); nra.
Qed.

Lemma norm_sq a : norm a * norm a = dot a a.
Proof.
  unfold norm. apply sqrt_sqrt. destruct a as [[a0 a1] a2]; simpl; nra.
Qed.

Lemma norm_nz a : a <> vzero -> norm a <> 0.
Proof.
  intros H E. pose proof (norm_sq a) as S. rewrite E in S.
  pose proof (dot_pos a H). lra.
Qed.

Lemma dot_vdiv a b s t : s <> 0 -> t <> 0 -> dot (vdiv a s) (vdiv b t) = dot a b / (s * t).
Proof.
  destruct a as [[a0 a1] a2], b as [[b0 b1] b2]; simpl; intros; field; auto.
Qed.

Lemma unit_norm a : a <> vzero -> dot (vdiv a (norm a)) (vdiv a (norm a)) = 1.
Proof.
  intro H. rewrite dot_vdiv by (apply norm_nz; auto).
  rewrite norm_sq. pose proof (dot_pos a H). field. lra.
Qed.

Lemma cross_orth_l a b : dot (cross a b) a = 0.
Proof. destruct a as [[a0 a1] a2], b as [[b0 b1] b2]; simpl; ring. Qed.
Lemma cross_orth_r a b : dot (cross a b) b = 0.
Proof. destruct a as [[a0 a1] a2], b as [[b0 b1] b2]; simpl; ring. Qed.
Lemma dot_comm a b : dot a b = dot b a.
Proof. destruct a as [[a0 a1] a2], b as [[b0 b1] b2]; simpl; ring. Qed.
Lemma lagrange a b : dot (cross a b) (cross a b) = dot a a * dot b b - dot a b * dot a b.
Proof. destruct a as [[a0 a1] a2], b as [[b0 b1] b2]; simpl; ring. Qed.

Lemma cross_zero_l b : cross vzero b = vzero.
Proof. destruct b as [[b0 b1] b2]; unfold vzero; simpl; f_equal; [f_equal|]; ring. Qed.

Lemma cross_nz a b : dot a b = 0 -> a <> vzero -> b <> vzero -> cross a b <> vzero.
Proof.
  intros O Ha Hb E. pose proof (lagrange a b) as L. rewrite E, O in L.
  simpl in L. pose proof (dot_pos a Ha). pose proof (dot_pos b Hb). nra.
Qed.

Lemma cols_of_metrics vs :
  let o := at_ vs 0 in
  let t := map (fun v => vsub v o) vs in
  let e := first_edge t in
  let n := cross e (closing_edge t) in
  col (projection_matrix (calc_basic_metrics vs)) 0 = vdiv e (norm e) /\
  col (projection_matrix (calc_basic_metrics vs)) 1 = vdiv (cross n e) (norm (cross n e)) /\
  col (projection_matrix (calc_basic_metrics vs)) 2 = vdiv n (norm n).
Proof.
  cbv zeta. unfold calc_basic_metrics, first_edge, closing_edge. cbv zeta.
  set (t := map _ vs).
  set (e := vsub (at_ t 1) (at_ t 0)).
  set (n := cross e (vsub (at_last t) (at_ t 0))).
  destruct (vdiv e (norm e)) as [[x0 y0] z0].
  destruct (vdiv (cross n e) (norm (cross n e))) as [[x1 y1] z1].
  destruct (vdiv n (norm n)) as [[x2 y2] z2].
  simpl. auto.
Qed.

Lemma vsub_shift a b o : vsub (vsub a o) (vsub b o) = vsub a b.
Proof.
  destruct a as [[a0 a1] a2], b as [[b0 b1] b2], o as [[o0 o1] o2]; simpl.
  f_equal; [f_equal|]; ring.
Qed.

Lemma last_map_cons {A B} (f : A -> B) (x : A) l d d' :
  last (map f (x :: l)) d = f (last (x :: l) d').
Proof.
  revert x. induction l as [|y l IH]; intro x; [reflexivity|].
  change (last (map f (y :: l)) d = f (last (y :: l) d')). apply IH.
Qed.

Lemma edges_translated vs :
  cross (first_edge vs) (closing_edge vs) <> vzero ->
  let t := map (fun v => vsub v (at_ vs 0)) vs in
  first_edge t = first_edge vs /\ closing_edge t = closing_edge vs.
Proof.
  destruct vs as [|a [|b rest]]; intro H.
  - exfalso. apply H. unfold first_edge, closing_edge, at_, at_last. simpl.
    unfold vzero. simpl. f_equal; [f_equal|]; ring.
  - exfalso. apply H. unfold first_edge, closing_edge, at_, at_last. simpl.
    destruct a as [[a0 a1] a2]. unfold vzero. simpl. f_equal; [f_equal|]; ring.
  - cbv zeta. unfold first_edge, closing_edge, at_, at_last. simpl nth.
    split; [apply vsub_shift|].
    rewrite (last_map_cons _ a (b :: rest) vzero vzero). apply vsub_shift.
Qed.

(** C6: when the first edge [v1 - v0] and the closing edge [vLast - v0]
    of the ring are non-zero and non-parallel (their cross product is not
    zero), the columns of [projection_matrix] are orthonormal, column 0 is
    the unit vector of the first edge and column 2 the unit normal
    [cross(first edge, closing edge)] (right-hand rule on the winding). *)
Theorem projection_matrix_orthonormal (vs : list vec) :
  cross (first_edge vs) (closing_edge vs) <> vzero ->
  let m := projection_matrix (calc_basic_metrics vs) in
  (forall i j : nat, (i < 3)%nat -> (j < 3)%nat ->
     dot (col m i) (col m j) = if Nat.eqb i j then 1 else 0) /\
  col m 0 = vdiv (first_edge vs) (norm (first_edge vs)) /\
  col m 2 = vdiv (cross (first_edge vs) (closing_edge vs))
                 (norm (cross (first_edge vs) (closing_edge vs))).
Proof.
  intros Hn m.
  destruct (cols_of_metrics vs) as (C0 & C1 & C2).
  destruct (edges_translated vs Hn) as [Ee Ec].
  cbv zeta in C0, C1, C2. rewrite Ee in C0, C1, C2. rewrite Ec in C1. rewrite Ec in C2.
  fold m in C0, C1, C2.
  set (e := first_edge vs) in *. set (n := cross e (closing_edge vs)) in *.
  assert (He : e <> vzero).
  { intro E. apply Hn. unfold n. rewrite E. apply cross_zero_l. }
  assert (Hne : dot n e = 0) by apply cross_orth_l.
  assert (Hw : cross n e <> vzero) by (apply cross_nz; auto).
  assert (Hwn : dot (cross n e) n = 0) by apply cross_orth_l.
  assert (Hwe : dot (cross n e) e = 0) by apply cross_orth_r.
  pose proof (norm_nz e He). pose proof (norm_nz n Hn). pose proof (norm_nz _ Hw).
  split; [|split; assumption].
  intros i j Hi Hj.
  destruct i as [|[|[|i]]]; try lia; destruct j as [|[|[|j]]]; try lia;
    simpl Nat.eqb; cbv iota;
    rewrite ?C0, ?C1, ?C2;
    first [ apply unit_norm; assumption
          | rewrite dot_vdiv by assumption;
            first [ rewrite Hne | rewrite Hwn | rewrite Hwe
                  | rewrite dot_comm, Hne | rewrite dot_comm, Hwn
                  | rewrite dot_comm, Hwe ];
            unfold Rdiv; ring ].
Qed.

(** C6 at the unit square [(0,0,0), (1,0,0), (1,1,0), (0,1,0)]. *)
Lemma projection_matrix_orthonormal_witness :
  let vs : list vec := [(0, 0, 0); (1, 0, 0); (1, 1, 0); (0, 1, 0)] in
  cross (first_edge vs) (closing_edge vs) <> vzero /\
  (let m := projection_matrix (calc_basic_metrics vs) in
   (forall i j : nat, (i < 3)%nat -> (j < 3)%nat ->
      dot (col m i) (col m j) = if Nat.eqb i j then 1 else 0) /\
   col m 0 = vdiv (first_edge vs) (norm (first_edge vs)) /\
   col m 2 = vdiv (cross (first_edge vs) (closing_edge vs))
                  (norm (cross (first_edge vs) (closing_edge vs)))).
Proof.
  intro vs.
  assert (H : cross (first_edge vs) (closing_edge vs) <> vzero).
  { unfold vs, first_edge, closing_edge, at_, at_last, vzero. simpl.
    intro E. injection E as _ _ E2. lra. }
  split; [exact H | exact (projection_matrix_orthonormal vs H)].
Defined.

End FrameFacts.

(** ** Deduplication by [list.index] *)

Module DedupFacts.

Section Facts.
Variable A : Type.
Variable eqb : A -> A -> bool.
Hypothesis eqb_refl : forall x, eqb x x = true.
Hypothesis eqb_sym : forall x y, eqb x y = eqb y x.
Hypothesis eqb_trans : forall x y z, eqb x y = true -> eqb y z = true -> eqb x z = true.

Lemma index_of_app x l m p :
  index_of eqb x l = Some p -> index_of eqb x (l ++ m) = Some p.
Proof.
  revert p. induction l as [|y r IH]; intros p H; simpl in *; [discriminate|].
  destruct (eqb y x); [exact H|].
  destruct (index_of eqb x r) as [p'|] eqn:E; [|discriminate].
  rewrite (IH p' eq_refl). exact H.
Qed.

Lemma index_of_snoc x l :
  index_of eqb x l = None -> index_of eqb x (l ++ [x]) = Some (length l).
Proof.
  induction l as [|y r IH]; intro H; simpl in *.
  - rewrite eqb_refl. reflexivity.
  - destruct (eqb y x); [discriminate|].
    destruct (index_of eqb x r); [discriminate|]. rewrite IH; reflexivity.
Qed.

Lemma index_of_compat x y l :
  eqb x y = true -> index_of eqb x l = index_of eqb y l.
Proof.
  intro Hxy. induction l as [|z r IH]; simpl; [reflexivity|].
  rewrite IH.
  assert (E : eqb z x = eqb z y).
  { destruct (eqb z x) eqn:Ex, (eqb z y) eqn:Ey; auto.
    - rewrite (eqb_trans _ _ _ Ex Hxy) in Ey. discriminate.
    - rewrite eqb_sym in Hxy.
      rewrite (eqb_trans _ _ _ Ey Hxy) in Ex. discriminate. }
  rewrite E. reflexivity.
Qed.

Lemma index_of_found x l p :
  index_of eqb x l = Some p -> exists y, nth_error l p = Some y /\ eqb y x = true.
Proof.
  revert p. induction l as [|y r IH]; intros p H; simpl in H; [discriminate|].
  destruct (eqb y x) eqn:E.
  - injection H as <-. exists y. auto.
  - destruct (index_of eqb x r) as [p'|] eqn:Er; [|discriminate].
    injection H as <-. exact (IH p' eq_refl).
Qed.

(** Every recorded position is the [index] of its element in the final
    list, whatever is appended to it later. *)
Definition indexed (all : list A) (x : A) (p : nat) : Prop :=
  forall m, index_of eqb x (all ++ m) = Some p.

Lemma indexed_ext all m x p : indexed all x p -> indexed (all ++ m) x p.
Proof. intros H m'. rewrite <- app_assoc. apply H. Qed.

Lemma dedup_push_spec acc x :
  let '(acc', p) := dedup_push eqb acc x in
  (exists m, acc' = acc ++ m) /\ indexed acc' x p.
Proof.
  unfold dedup_push. destruct (index_of eqb x acc) as [p|] eqn:E.
  - split; [exists []; rewrite app_nil_r; reflexivity|].
    intro m. apply index_of_app. exact E.
  - split; [eexists; reflexivity|].
    intro m. apply index_of_app. apply index_of_snoc. exact E.
Qed.

Lemma dedup_face_spec xs : forall acc,
  let '(acc', ps) := dedup_face eqb acc xs in
  (exists m, acc' = acc ++ m) /\ Forall2 (indexed acc') xs ps.
Proof.
  induction xs as [|x r IH]; intro acc; simpl.
  - split; [exists []; rewrite app_nil_r; reflexivity | constructor].
  - pose proof (dedup_push_spec acc x) as Hp.
    destruct (dedup_push eqb acc x) as [acc1 p].
    destruct Hp as [[m1 E1] Hx].
    specialize (IH acc1). destruct (dedup_face eqb acc1 r) as [acc2 ps].
    destruct IH as [[m2 E2] Hr]. subst.
    split; [exists (m1 ++ m2); rewrite app_assoc; reflexivity|].
    constructor; [apply indexed_ext; exact Hx | exact Hr].
Qed.

Lemma dedup_faces_spec faces : forall acc,
  let '(all, pss) := dedup_faces eqb acc faces in
  (exists m, all = acc ++ m) /\ Forall2 (Forall2 (indexed all)) faces pss.
Proof.
  induction faces as [|f r IH]; intro acc; simpl.
  - split; [exists []; rewrite app_nil_r; reflexivity | constructor].
  - pose proof (dedup_face_spec f acc) as Hf.
    destruct (dedup_face eqb acc f) as [acc1 ps].
    destruct Hf as [[m1 E1] Hx].
    specialize (IH acc1). destruct (dedup_faces eqb acc1 r) as [acc2 pss].
    destruct IH as [[m2 E2] Hr]. subst.
    split; [exists (m1 ++ m2); rewrite app_assoc; reflexivity|].
    constructor; [|exact Hr].
    eapply Forall2_impl; [|exact Hx]. intros. apply indexed_ext. assumption.
Qed.

Lemma Forall2_nth_error {X Y} (P : X -> Y -> Prop) l1 l2 i a :
  Forall2 P l1 l2 -> nth_error l1 i = Some a ->
  exists b, nth_error l2 i = Some b /\ P a b.
Proof.
  intro H. revert i. induction H as [|x y l1 l2 Hxy _ IH]; intros i Hi.
  - destruct i; discriminate.
  - destruct i as [|i]; simpl in *; [injection Hi as <-; eauto | eauto].
Qed.

Lemma Forall2_length_eq {X Y} (P : X -> Y -> Prop) l1 l2 :
  Forall2 P l1 l2 -> length l1 = length l2.
Proof. induction 1; simpl; congruence. Qed.

(** Two equal elements, in any two faces, get the same position, and the
    entry at that position equals them. *)
Lemma dedup_faces_same_index faces all pss i j fi fj p q x y :
  dedup_faces eqb [] faces = (all, pss) ->
  nth_error faces i = Some fi -> nth_error fi p = Some x ->
  nth_error faces j = Some fj -> nth_error fj q = Some y ->
  eqb x y = true ->
  exists psi psj pos z,
    nth_error pss i = Some psi /\ nth_error psi p = Some pos /\
    nth_error pss j = Some psj /\ nth_error psj q = Some pos /\
    nth_error all pos = Some z /\ eqb z x = true.
Proof.
  intros Hd Hi Hp Hj Hq Hxy.
  pose proof (dedup_faces_spec faces []) as Hs. rewrite Hd in Hs.
  destruct Hs as [_ H].
  destruct (Forall2_nth_error _ _ _ _ _ H Hi) as [psi [Ei Fi]].
  destruct (Forall2_nth_error _ _ _ _ _ H Hj) as [psj [Ej Fj]].
  destruct (Forall2_nth_error _ _ _ _ _ Fi Hp) as [pos [Ep Ip]].
  destruct (Forall2_nth_error _ _ _ _ _ Fj Hq) as [pos' [Eq Iq]].
  specialize (Ip []). specialize (Iq []). rewrite app_nil_r in Ip, Iq.
  rewrite <- (index_of_compat _ _ _ Hxy) in Iq.
  rewrite Ip in Iq. injection Iq as <-.
  destruct (index_of_found _ _ _ Ip) as [z [Ez Hz]].
  exists psi, psj, pos, z. auto 7.
Qed.

End Facts.

End DedupFacts.

(** ** The pipeline *)

Module PipelineFacts.
Import Pipeline.
Local Open Scope Q_scope.

(* ---- Mesh emission ---- *)

Lemma qeq3_refl x : qeq3 x x = true.
Proof. destruct x as [[a b] c]; simpl. rewrite !Qeq_bool_refl. reflexivity. Qed.

Lemma qeq3_sym x y : qeq3 x y = qeq3 y x.
Proof.
  destruct x as [[a b] c], y as [[d e] f]; simpl.
  destruct (Qeq_bool a d) eqn:E1, (Qeq_bool d a) eqn:E2; try reflexivity;
    try (apply Qeq_bool_sym in E1; congruence);
    try (apply Qeq_bool_sym in E2; congruence);
  destruct (Qeq_bool b e) eqn:E3, (Qeq_bool e b) eqn:E4; try reflexivity;
    try (apply Qeq_bool_sym in E3; congruence);
    try (apply Qeq_bool_sym in E4; congruence);
  destruct (Qeq_bool c f) eqn:E5, (Qeq_bool f c) eqn:E6; try reflexivity;
    try (apply Qeq_bool_sym in E5; congruence);
    try (apply Qeq_bool_sym in E6; congruence).
Qed.

Lemma qeq3_trans x y z : qeq3 x y = true -> qeq3 y z = true -> qeq3 x z = true.
Proof.
  destruct x as [[a b] c], y as [[d e] f], z as [[g h] k]; simpl.
  rewrite !andb_true_iff. intros [[H1 H2] H3] [[H4 H5] H6].
  repeat split; eapply Qeq_bool_trans; eassumption.
Qed.

Lemma qeq2_refl x : qeq2 x x = true.
Proof. destruct x as [a b]; simpl. rewrite !Qeq_bool_refl. reflexivity. Qed.

Lemma qeq2_sym x y : qeq2 x y = qeq2 y x.
Proof.
  destruct x as [a b], y as [d e]; simpl.
  destruct (Qeq_bool a d) eqn:E1, (Qeq_bool d a) eqn:E2; try reflexivity;
    try (apply Qeq_bool_sym in E1; congruence);
    try (apply Qeq_bool_sym in E2; congruence);
  destruct (Qeq_bool b e) eqn:E3, (Qeq_bool e b) eqn:E4; try reflexivity;
    try (apply Qeq_bool_sym in E3; congruence);
    try (apply Qeq_bool_sym in E4; congruence).
Qed.

Lemma qeq2_trans x y z : qeq2 x y = true -> qeq2 y z = true -> qeq2 x z = true.
Proof.
  destruct x as [a b], y as [d e], z as [g h]; simpl.
  rewrite !andb_true_iff. intros [H1 H2] [H4 H5].
  split; eapply Qeq_bool_trans; eassumption.
Qed.

Lemma nth_map_seq {X} (F : nat -> X) (L i : nat) (d : X) :
  (i < L)%nat -> nth i (map F (seq 0 L)) d = F i.
Proof.
  intro H. rewrite (nth_indep _ d (F 0%nat)) by (rewrite length_map, length_seq; exact H).
  rewrite map_nth, seq_nth by exact H. reflexivity.
Qed.

Lemma face_line_nth n verts vts p v :
  nth_error verts p = Some v ->
  nth_error (face_line n verts vts) p = Some (S v, S (nth p vts 0%nat), S n).
Proof.
  intro H. assert (Hp : (p < length verts)%nat)
    by (apply nth_error_Some; rewrite H; discriminate).
  unfold face_line. rewrite nth_error_map, nth_error_seq.
  apply Nat.ltb_lt in Hp. rewrite Hp. simpl.
  rewrite (nth_error_nth _ _ _ H). reflexivity.
Qed.

Lemma nth_ring_in_range {X} (l : list (list X)) i p x :
  nth_error (nth i l []) p = Some x -> (i < length l)%nat.
Proof.
  intro H. destruct (Nat.lt_ge_cases i (length l)) as [Hi|Hi]; [exact Hi|].
  rewrite nth_overflow in H by exact Hi. destruct p; discriminate.
Qed.

Lemma removelast_nil {X} : @removelast X [] = [].
Proof. reflexivity. Qed.

(** The face lines of [make_obj], read through the two dedup passes. *)
Lemma make_obj_faces rings ss all fv vt vti :
  dedup_faces qeq3 [] (map (@removelast _) rings) = (all, fv) ->
  dedup_faces qeq2 [] (map texcoords ss) = (vt, vti) ->
  make_obj rings ss =
  mkobj all vt (map (fun n => face_line n (nth n fv []) (nth n vti [])) (seq 0 (length fv))).
Proof. intros E1 E2. unfold make_obj. rewrite E1, E2. reflexivity. Qed.

(** C8: two vertices of two faces (or of one face) with equal coordinates
    are written with the same 1-based [v] index in their [f] lines, and the
    [v] line at that index holds these coordinates: the vertex list is one
    list for the building, deduplicated by exact equality. *)
Theorem shared_vertex_same_index (rings : list (list (Q * Q * Q))) (ss : list surface)
    (i j p q : nat) (ci cj : Q * Q * Q) :
  nth_error (removelast (nth i rings [])) p = Some ci ->
  nth_error (removelast (nth j rings [])) q = Some cj ->
  qeq3 ci cj = true ->
  exists v vti vtj c,
    nth_error (nth i (obj_faces (make_obj rings ss)) []) p = Some (S v, vti, S i) /\
    nth_error (nth j (obj_faces (make_obj rings ss)) []) q = Some (S v, vtj, S j) /\
    nth_error (obj_vertices (make_obj rings ss)) v = Some c /\ qeq3 c ci = true.
Proof.
  intros Hp Hq Hc.
  assert (Hi : (i < length rings)%nat).
  { destruct (Nat.lt_ge_cases i (length rings)) as [H|H]; [exact H|].
    rewrite nth_overflow in Hp by exact H. destruct p; discriminate. }
  assert (Hj : (j < length rings)%nat).
  { destruct (Nat.lt_ge_cases j (length rings)) as [H|H]; [exact H|].
    rewrite nth_overflow in Hq by exact H. destruct q; discriminate. }
  destruct (dedup_faces qeq3 [] (map (@removelast _) rings)) as [all fv] eqn:E1.
  destruct (dedup_faces qeq2 [] (map texcoords ss)) as [vt vti] eqn:E2.
  rewrite (make_obj_faces rings ss all fv vt vti E1 E2). simpl.
  destruct (DedupFacts.dedup_faces_same_index _ qeq3 qeq3_refl qeq3_sym qeq3_trans
              _ _ _ i j (removelast (nth i rings [])) (removelast (nth j rings []))
              p q ci cj E1) as (psi & psj & pos & c & Ei & Ep & Ej & Eq & Ec & Hcc).
  - rewrite nth_error_map. erewrite nth_error_nth' by exact Hi. reflexivity.
  - exact Hp.
  - rewrite nth_error_map. erewrite nth_error_nth' by exact Hj. reflexivity.
  - exact Hq.
  - exact Hc.
  - assert (Li : (i < length fv)%nat) by (apply nth_error_Some; rewrite Ei; discriminate).
    assert (Lj : (j < length fv)%nat) by (apply nth_error_Some; rewrite Ej; discriminate).
    rewrite !nth_map_seq by assumption.
    rewrite (nth_error_nth _ _ _ Ei), (nth_error_nth _ _ _ Ej).
    exists pos, (S (nth p (nth i vti []) 0%nat)), (S (nth q (nth j vti []) 0%nat)), c.
    rewrite (face_line_nth _ _ _ _ _ Ep), (face_line_nth _ _ _ _ _ Eq). auto.
Qed.

(** Two faces of a unit cube: the bottom [z = 0] and the top [z = 1]. *)
Definition cube_rings : list (list (Q * Q * Q)) :=
  [[(0, 0, 0); (1, 0, 0); (1, 1, 0); (0, 1, 0); (0, 0, 0)];
   [(0, 0, 0); (0, 1, 0); (0, 1, 1); (0, 0, 1); (0, 0, 0)]].

(** Their surfaces, both with the unit square as projected ring. *)
Definition unit_square_surface (n : nat) : surface :=
  mksurface n (mkbnd 0 0 1 1) [(0, 0, 0); (1, 0, 0); (1, 1, 0); (0, 1, 0)] [].

(** C8 at two faces sharing the edge [(0,0,0)-(0,1,0)]. *)
Lemma shared_vertex_same_index_witness :
  let o := make_obj cube_rings [unit_square_surface 0; unit_square_surface 1] in
  exists v vti vtj c,
    (nth_error (nth 0 (obj_faces o) []) 3 = Some (S v, vti, 1%nat)) /\
    (nth_error (nth 1 (obj_faces o) []) 1 = Some (S v, vtj, 2%nat)) /\
    (nth_error (obj_vertices o) v = Some c) /\ qeq3 c (0, 1, 0) = true.
Proof.
  intro o.
  apply (shared_vertex_same_index cube_rings _ 0 1 3 1 (0, 1, 0) (0, 1, 0));
    reflexivity.
Defined.

(** C2 fails: the two faces of [cube_rings] have the same texture
    coordinates (both project to the unit square); the [vt] list holds four
    entries for the whole building, and the first vertex of the second face
    references entry 1, the entry of the first vertex of the first face. *)
Lemma texcoords_not_per_face :
  let o := make_obj cube_rings [unit_square_surface 0; unit_square_surface 1] in
  length (obj_texcoords o) = 4%nat /\
  nth_error (nth 0 (obj_faces o) []) 0 = Some (1%nat, 1%nat, 1%nat) /\
  nth_error (nth 1 (obj_faces o) []) 0 = Some (1%nat, 1%nat, 2%nat).
Proof. vm_compute. auto. Qed.

(** C2 (amended): texture coordinates are deduplicated by exact equality in
    ONE list for the whole building: two equal texture coordinates, of the
    same face or of two faces, are written with the same 1-based [vt] index,
    and the [vt] line at that index holds them. *)
Theorem texcoords_global_dedup (rings : list (list (Q * Q * Q))) (ss : list surface)
    (i j p q : nat) (ti tj : Q * Q) :
  nth_error (texcoords (nth i ss (empty_surface i))) p = Some ti ->
  nth_error (texcoords (nth j ss (empty_surface j))) q = Some tj ->
  qeq2 ti tj = true ->
  (p < length (removelast (nth i rings [])))%nat ->
  (q < length (removelast (nth j rings [])))%nat ->
  exists t vi vj c,
    nth_error (nth i (obj_faces (make_obj rings ss)) []) p = Some (vi, S t, S i) /\
    nth_error (nth j (obj_faces (make_obj rings ss)) []) q = Some (vj, S t, S j) /\
    nth_error (obj_texcoords (make_obj rings ss)) t = Some c /\ qeq2 c ti = true.
Proof.
  intros Hp Hq Hc Lp Lq.
  assert (Hi : (i < length ss)%nat).
  { destruct (Nat.lt_ge_cases i (length ss)) as [H|H]; [exact H|].
    rewrite nth_overflow in Hp by exact H. destruct p; discriminate. }
  assert (Hj : (j < length ss)%nat).
  { destruct (Nat.lt_ge_cases j (length ss)) as [H|H]; [exact H|].
    rewrite nth_overflow in Hq by exact H. destruct q; discriminate. }
  assert (Ri : (i < length rings)%nat).
  { destruct (Nat.lt_ge_cases i (length rings)) as [H|H]; [exact H|].
    rewrite nth_overflow in Lp by exact H. simpl in Lp. lia. }
  assert (Rj : (j < length rings)%nat).
  { destruct (Nat.lt_ge_cases j (length rings)) as [H|H]; [exact H|].
    rewrite nth_overflow in Lq by exact H. simpl in Lq. lia. }
  destruct (dedup_faces qeq3 [] (map (@removelast _) rings)) as [all fv] eqn:E1.
  destruct (dedup_faces qeq2 [] (map texcoords ss)) as [vt vti] eqn:E2.
  rewrite (make_obj_faces rings ss all fv vt vti E1 E2). simpl.
  destruct (DedupFacts.dedup_faces_same_index _ qeq2 qeq2_refl qeq2_sym qeq2_trans
              _ _ _ i j (texcoords (nth i ss (empty_surface i)))
              (texcoords (nth j ss (empty_surface j)))
              p q ti tj E2) as (psi & psj & t & c & Ei & Ep & Ej & Eq & Ec & Hcc).
  - rewrite nth_error_map. erewrite nth_error_nth' by exact Hi. reflexivity.
  - exact Hp.
  - rewrite nth_error_map. erewrite nth_error_nth' by exact Hj. reflexivity.
  - exact Hq.
  - exact Hc.
  - pose proof (DedupFacts.dedup_faces_spec _ qeq3 qeq3_refl
                  (map (@removelast _) rings) []) as S1.
    rewrite E1 in S1. destruct S1 as [_ F1].
    pose proof (DedupFacts.Forall2_length_eq _ _ _ F1) as L1.
    rewrite length_map in L1.
    assert (Fi : exists vsi, nth_error fv i = Some vsi /\
                   length vsi = length (removelast (nth i rings []))).
    { assert (Ni : nth_error (map (@removelast _) rings) i =
                   Some (removelast (nth i rings []))).
      { rewrite nth_error_map. erewrite nth_error_nth' by exact Ri. reflexivity. }
      destruct (DedupFacts.Forall2_nth_error _ _ _ _ _ F1 Ni) as [vsi [E F]].
      exists vsi. split; [exact E|]. symmetry. exact (DedupFacts.Forall2_length_eq _ _ _ F). }
    assert (Fj : exists vsj, nth_error fv j = Some vsj /\
                   length vsj = length (removelast (nth j rings []))).
    { assert (Nj : nth_error (map (@removelast _) rings) j =
                   Some (removelast (nth j rings []))).
      { rewrite nth_error_map. erewrite nth_error_nth' by exact Rj. reflexivity. }
      destruct (DedupFacts.Forall2_nth_error _ _ _ _ _ F1 Nj) as [vsj [E F]].
      exists vsj. split; [exact E|]. symmetry. exact (DedupFacts.Forall2_length_eq _ _ _ F). }
    destruct Fi as [vsi [Evi Lvi]], Fj as [vsj [Evj Lvj]].
    rewrite !nth_map_seq by lia.
    rewrite (nth_error_nth _ _ _ Evi), (nth_error_nth _ _ _ Evj).
    rewrite (nth_error_nth _ _ _ Ei), (nth_error_nth _ _ _ Ej).
    assert (Vi : nth_error vsi p = Some (nth p vsi 0%nat)) by (apply nth_error_nth'; lia).
    assert (Vj : nth_error vsj q = Some (nth q vsj 0%nat)) by (apply nth_error_nth'; lia).
    exists t, (S (nth p vsi 0%nat)), (S (nth q vsj 0%nat)), c.
    rewrite (face_line_nth _ _ _ _ _ Vi), (face_line_nth _ _ _ _ _ Vj).
    rewrite (nth_error_nth _ _ _ Ep), (nth_error_nth _ _ _ Eq). auto.
Qed.

(** C2 (amended) at the two faces of [cube_rings]: the first texture
    coordinate of each. *)
Lemma texcoords_global_dedup_witness :
  let o := make_obj cube_rings [unit_square_surface 0; unit_square_surface 1] in
  exists t vi vj c,
    (nth_error (nth 0 (obj_faces o) []) 0 = Some (vi, S t, 1%nat)) /\
    (nth_error (nth 1 (obj_faces o) []) 0 = Some (vj, S t, 2%nat)) /\
    (nth_error (obj_texcoords o) t = Some c) /\ qeq2 c (0 # 1000, 1000 # 1000) = true.
Proof.
  intro o.
  apply (texcoords_global_dedup cube_rings _ 0 1 0 0 (0 # 1000, 1000 # 1000)
           (0 # 1000, 1000 # 1000));
    first [vm_compute; reflexivity | vm_compute; lia].
Defined.

(* ---- Distance matrix and masks ---- *)

Lemma qlt_spec a b : qlt a b = true <-> a < b.
Proof.
  unfold qlt. rewrite negb_true_iff. split; intro H.
  - apply Qnot_le_lt. intro C. apply Qle_bool_iff in C. congruence.
  - destruct (Qle_bool b a) eqn:E; [|reflexivity].
    apply Qle_bool_iff in E. exfalso. apply (Qlt_not_le _ _ H E).
Qed.

Lemma qle_spec a b : qle a b = true <-> a <= b.
Proof. apply Qle_bool_iff. Qed.

Lemma vmin_in l : l <> [] -> In (vmin l) l.
Proof.
  induction l as [|x [|y r] IH]; intro H; [congruence|left; reflexivity|].
  change (In (let m := vmin (y :: r) in if qlt m x then m else x) (x :: y :: r)).
  cbv zeta. destruct (qlt (vmin (y :: r)) x).
  - right. apply IH. discriminate.
  - left. reflexivity.
Qed.

(** Entry [m] of [nkmap] depends on surface [m] alone. *)
Lemma distance_rows_nkmap lod nsurf ss : forall n k m,
  (m < length ss)%nat ->
  (nth m (fst (distance_rows lod nsurf n k ss)) None = None <->
   let ds := get_distance_matrix true (nth m ss (empty_surface 0)) in
   ds = [] \/
   qlt MAX_DIST
       (vmin (if Z.eqb lod 1 && (Nat.eqb (n + m) 0 || Nat.eqb (n + m) (nsurf - 1))
              then map (fun d => d + PENALTY) ds else ds)) = true).
Proof.
  induction ss as [|s rest IH]; intros n k m Hm; simpl in Hm; [lia|].
  simpl distance_rows.
  destruct (get_distance_matrix true s) as [|d ds] eqn:E.
  - destruct (distance_rows lod nsurf (S n) k rest) as [nk rows] eqn:R.
    destruct m as [|m]; simpl; cbv zeta; [rewrite E; tauto|].
    specialize (IH (S n) k m ltac:(lia)). rewrite R in IH. simpl in IH. cbv zeta in IH.
    rewrite IH. cbv zeta. rewrite <- ?plus_n_Sm, ?Nat.add_succ_l. tauto.
  - set (pd := if Z.eqb lod 1 && (Nat.eqb n 0 || Nat.eqb n (nsurf - 1))
               then map (fun x => x + PENALTY) (d :: ds) else d :: ds).
    destruct (qlt MAX_DIST (vmin pd)) eqn:Q.
    + destruct (distance_rows lod nsurf (S n) k rest) as [nk rows] eqn:R.
      destruct m as [|m]; simpl; cbv zeta.
      * rewrite E, Nat.add_0_r. fold pd. rewrite Q. split; [right; reflexivity|auto].
      * specialize (IH (S n) k m ltac:(lia)). rewrite R in IH. simpl in IH. cbv zeta in IH.
        rewrite IH. cbv zeta. rewrite <- ?plus_n_Sm, ?Nat.add_succ_l. tauto.
    + destruct (distance_rows lod nsurf (S n) (S k) rest) as [nk rows] eqn:R.
      destruct m as [|m]; simpl; cbv zeta.
      * rewrite E, Nat.add_0_r. fold pd. rewrite Q.
        split; [discriminate|intros [C|C]; discriminate].
      * specialize (IH (S n) (S k) m ltac:(lia)). rewrite R in IH. simpl in IH. cbv zeta in IH.
        rewrite IH. cbv zeta. rewrite <- ?plus_n_Sm, ?Nat.add_succ_l. tauto.
Qed.

Lemma distance_nonneg cb s d : In d (get_distance_matrix cb s) -> 0 <= d.
Proof.
  unfold get_distance_matrix. rewrite in_map_iff. intros [p [<- _]].
  pose proof (Qabs_nonneg (pz p)).
  destruct (cb && outbound (sboundary s) p); unfold PENALTY.
  - apply (Qle_trans _ (Qabs (pz p))); [assumption|].
    rewrite <- (Qplus_0_r (Qabs (pz p))) at 1. apply Qplus_le_r. discriminate.
  - rewrite Qplus_0_r. assumption.
Qed.

Lemma penalized_row_excluded (ds : list Q) :
  ds <> [] -> (forall d, In d ds -> 0 <= d) ->
  qlt MAX_DIST (vmin (map (fun d => d + PENALTY) ds)) = true.
Proof.
  intros Hne Hpos. apply qlt_spec.
  assert (Hm : map (fun d => d + PENALTY) ds <> []).
  { destruct ds; [congruence|discriminate]. }
  destruct (proj1 (in_map_iff _ _ _) (vmin_in _ Hm)) as [d [Ed Hd]].
  rewrite <- Ed. specialize (Hpos d Hd). unfold MAX_DIST, PENALTY.
  apply (Qlt_le_trans _ (0 + (9999 # 10))); [reflexivity|].
  apply Qplus_le_l. exact Hpos.
Qed.

(** Three faces: face 0 with a point on it (distance 0) and one at depth
    [999.5]; face 1 with one point out of its bounds and one at [0.2];
    face 2 with points at depths [0] and [0.5]. *)
Definition unit_bnd : boundary := mkbnd 0 0 1 1.
Definition face_a : surface :=
  mksurface 0 unit_bnd [] [mkpt (1 # 2) (1 # 2) 0; mkpt (1 # 2) (1 # 2) (9995 # 10)].
Definition face_b : surface :=
  mksurface 1 unit_bnd [] [mkpt 5 5 3; mkpt (1 # 2) (1 # 2) (1 # 5)].
Definition face_c : surface :=
  mksurface 2 unit_bnd [] [mkpt (1 # 2) (1 # 2) 0; mkpt (1 # 2) (1 # 2) (1 # 2)].


(** C3 fails: with [lod == 1], face 0 has a point at unpenalized distance
    [0 <= 10.0], yet it keeps no row: the [999.9] penalty is added before
    the [10.0] test. *)
Lemma lod1_cap_row_dropped :
  qle (vmin (get_distance_matrix true face_a)) MAX_DIST = true /\
  nth 0 (fst (distance_phase 1 [face_a; face_b; face_c])) None = None.
Proof. vm_compute. auto. Qed.

(** C3 (amended): face [n] gets no row exactly when it has no distances or
    the minimum of its row, penalized by [999.9] when [lod == 1] and [n] is
    the first or the last face, exceeds [10.0]; as the penalty comes before
    that test, with [lod == 1] the first and the last faces never get a row. *)
Theorem distance_row_exclusion (lod : Z) (ss : list surface) (n : nat) :
  (n < length ss)%nat ->
  (nth n (fst (distance_phase lod ss)) None = None <->
   let ds := get_distance_matrix true (nth n ss (empty_surface 0)) in
   ds = [] \/
   qlt MAX_DIST
       (vmin (if Z.eqb lod 1 && (Nat.eqb n 0 || Nat.eqb n (length ss - 1))
              then map (fun d => d + PENALTY) ds else ds)) = true) /\
  (lod = 1%Z -> (n = 0 \/ n = length ss - 1)%nat ->
   nth n (fst (distance_phase lod ss)) None = None).
Proof.
  intro Hn. unfold distance_phase.
  pose proof (distance_rows_nkmap lod (length ss) ss 0 0 n Hn) as H.
  simpl Nat.add in H. split; [exact H|].
  intros Hl Hc. apply H. cbv zeta.
  destruct (get_distance_matrix true (nth n ss (empty_surface 0))) as [|d ds] eqn:E;
    [left; reflexivity|right].
  subst lod. simpl Z.eqb.
  replace (Nat.eqb n 0 || Nat.eqb n (length ss - 1)) with true
    by (destruct Hc as [->| ->]; rewrite Nat.eqb_refl; [|rewrite orb_true_r]; reflexivity).
  apply penalized_row_excluded; [discriminate|].
  intros x Hx. rewrite <- E in Hx. exact (distance_nonneg _ _ _ Hx).
Qed.

(** C3 (amended) at face 0 of [[face_a; face_b; face_c]], [lod == 1]. *)
Lemma distance_row_exclusion_witness :
  let ss := [face_a; face_b; face_c] in
  (0 < length ss)%nat /\
  ((nth 0 (fst (distance_phase 1 ss)) None = None <->
   let ds := get_distance_matrix true (nth 0 ss (empty_surface 0)) in
   ds = [] \/
   qlt MAX_DIST
       (vmin (if Z.eqb 1 1 && (Nat.eqb 0 0 || Nat.eqb 0 (length ss - 1))
              then map (fun d => d + PENALTY) ds else ds)) = true) /\
  (1%Z = 1%Z -> (0 = 0 \/ 0 = length ss - 1)%nat ->
   nth 0 (fst (distance_phase 1 ss)) None = None)).
Proof.
  intro ss. split; [simpl; lia|].
  apply (distance_row_exclusion 1 ss 0). simpl; lia.
Defined.

Lemma distance_rows_length lod nsurf ss : forall n k,
  length (fst (distance_rows lod nsurf n k ss)) = length ss.
Proof.
  induction ss as [|s rest IH]; intros n k; [reflexivity|]. simpl.
  destruct (get_distance_matrix true s) as [|d ds].
  - specialize (IH (S n) k). destruct (distance_rows lod nsurf (S n) k rest).
    simpl in *. congruence.
  - destruct (qlt MAX_DIST _).
    + specialize (IH (S n) k). destruct (distance_rows lod nsurf (S n) k rest).
      simpl in *. congruence.
    + specialize (IH (S n) (S k)). destruct (distance_rows lod nsurf (S n) (S k) rest).
      simpl in *. congruence.
Qed.

Lemma distance_rows_widths lod nsurf ss (N : nat) :
  Forall (fun s => length (projected_points s) = N) ss -> forall n k,
  Forall (fun r => length r = N) (snd (distance_rows lod nsurf n k ss)).
Proof.
  induction 1 as [|s rest Hs _ IH]; intros n k; [constructor|]. simpl.
  destruct (get_distance_matrix true s) as [|d ds] eqn:E.
  - specialize (IH (S n) k). destruct (distance_rows lod nsurf (S n) k rest). exact IH.
  - destruct (qlt MAX_DIST _).
    + specialize (IH (S n) k). destruct (distance_rows lod nsurf (S n) k rest). exact IH.
    + specialize (IH (S n) (S k)). destruct (distance_rows lod nsurf (S n) (S k) rest).
      simpl. constructor; [|exact IH].
      assert (L : length (d :: ds) = N)
        by (rewrite <- E; unfold get_distance_matrix; rewrite length_map; exact Hs).
      destruct (Z.eqb lod 1 && _); simpl in *; rewrite ?length_map; exact L.
Qed.

Lemma distance_rows_some lod nsurf ss : forall n k0 m k,
  nth m (fst (distance_rows lod nsurf n k0 ss)) None = Some k ->
  (k0 <= k < k0 + length (snd (distance_rows lod nsurf n k0 ss)))%nat.
Proof.
  induction ss as [|s rest IH]; intros n k0 m k H; [destruct m; discriminate|].
  simpl in *.
  destruct (get_distance_matrix true s) as [|d ds].
  - pose proof (IH (S n) k0 (pred m) k) as IH'.
    destruct (distance_rows lod nsurf (S n) k0 rest).
    destruct m; simpl in *; [discriminate|]. auto.
  - destruct (qlt MAX_DIST _).
    + pose proof (IH (S n) k0 (pred m) k) as IH'.
      destruct (distance_rows lod nsurf (S n) k0 rest).
      destruct m; simpl in *; [discriminate|]. auto.
    + pose proof (IH (S n) (S k0) (pred m) k) as IH'.
      destruct (distance_rows lod nsurf (S n) (S k0) rest).
      destruct m; simpl in *; [injection H as <-; lia|].
      specialize (IH' H). lia.
Qed.

Lemma nearest_faces_spec rows (N : nat) :
  rows <> [] -> Forall (fun r => length r = N) rows ->
  nearest_faces rows = Some (map (fun j => argmin (column rows j)) (seq 0 N)).
Proof.
  intros Hne Hw. destruct rows as [|r0 rest]; [congruence|].
  inversion Hw; subst. reflexivity.
Qed.

Lemma nth_map_in {X Y} (f : X -> Y) (l : list X) (j : nat) (dx : X) (dy : Y) :
  (j < length l)%nat -> nth j (map f l) dy = f (nth j l dx).
Proof.
  intro H. rewrite (nth_indep _ dy (f dx)) by (rewrite length_map; exact H).
  apply map_nth.
Qed.

Lemma nth_and_combine (a b : list bool) (j : nat) :
  length a = length b ->
  nth j (map (fun '(x, y) => x && y) (combine a b)) false = nth j a false && nth j b false.
Proof.
  revert b j. induction a as [|x a IH]; intros [|y b] j H; simpl in H; try discriminate.
  - destruct j; reflexivity.
  - destruct j; simpl; [reflexivity|]. apply IH. congruence.
Qed.

Lemma length_and_combine (a b : list bool) :
  length a = length b -> length (map (fun '(x, y) => x && y) (combine a b)) = length a.
Proof. intro H. rewrite length_map, length_combine, H. apply Nat.min_id. Qed.

(** The rows and the surviving faces when every surface projects the [N]
    points of the shared cloud. *)
Lemma surviving_face lod ss n k (N : nat) :
  Forall (fun s => length (projected_points s) = N) ss ->
  nth n (fst (distance_phase lod ss)) None = Some k ->
  (n < length ss)%nat /\
  nearest_faces (snd (distance_phase lod ss)) =
    Some (map (fun j => argmin (column (snd (distance_phase lod ss)) j)) (seq 0 N)) /\
  length (nth k (snd (distance_phase lod ss)) []) = N.
Proof.
  intros Hw Hk. unfold distance_phase in *.
  pose proof (distance_rows_some _ _ _ _ _ _ _ Hk) as Hr.
  pose proof (distance_rows_widths lod (length ss) ss N Hw 0 0) as Hrw.
  split.
  - rewrite <- (distance_rows_length lod (length ss) ss 0 0).
    apply nth_error_Some. intro E. rewrite nth_error_nth' with (d := None) in E; [|].
    + discriminate.
    + destruct (Nat.lt_ge_cases n (length (fst (distance_rows lod (length ss) 0 0 ss))))
        as [L|L]; [exact L|]. rewrite nth_overflow in Hk by exact L. discriminate.
  - split.
    + apply nearest_faces_spec; [|exact Hrw].
      intro E. rewrite E in Hr. simpl in Hr. lia.
    + rewrite Forall_forall in Hrw. apply Hrw. apply nth_In. lia.
Qed.

(** C5 fails: face 0 of [[face_a]] is the nearest face of its point 1,
    whose distance [999.5] is below [999.9], yet the point is not in the
    [nearest] mask: the source compares with [999.0]. *)
Lemma nearest_mask_cutoff_999 :
  face_mask Nearest 2 [face_a] 0 = MArr [true; false] /\
  argmin (column (snd (distance_phase 2 [face_a])) 1) = 0%nat /\
  qlt (nth 1 (nth 0 (snd (distance_phase 2 [face_a])) []) 0) PENALTY = true.
Proof. vm_compute. auto. Qed.

(** C5 (amended): under [nearest], for a face [n] with row [k], point [j]
    is in the mask iff row [k] is its arg-min and its distance in row [k] is
    below [999.0]. *)
Theorem nearest_mask_spec (lod : Z) (ss : list surface) (n k N : nat) :
  Forall (fun s => length (projected_points s) = N) ss ->
  nth n (fst (distance_phase lod ss)) None = Some k ->
  exists l, face_mask Nearest lod ss n = MArr l /\ length l = N /\
    forall j, (j < N)%nat ->
      (nth j l false = true <->
       argmin (column (snd (distance_phase lod ss)) j) = k /\
       nth j (nth k (snd (distance_phase lod ss)) []) 0 < NEAREST_LIMIT).
Proof.
  intros Hw Hk.
  destruct (surviving_face lod ss n k N Hw Hk) as (_ & Hnf & Hlk).
  unfold face_mask. destruct (distance_phase lod ss) as [nkmap rows]. simpl in *.
  unfold nearest_mask. rewrite Hk, Hnf. simpl eq_mask. unfold mask_and.
  set (a := map (Nat.eqb k) (map (fun j => argmin (column rows j)) (seq 0 N))).
  set (b := map (fun d => qlt d NEAREST_LIMIT) (nth k rows [])).
  assert (La : length a = N) by (unfold a; rewrite !length_map, length_seq; reflexivity).
  assert (Lb : length b = N) by (unfold b; rewrite length_map; exact Hlk).
  exists (map (fun '(x, y) => x && y) (combine a b)). split; [reflexivity|].
  split; [rewrite length_and_combine; congruence|].
  intros j Hj. rewrite nth_and_combine by congruence.
  unfold a, b. rewrite (nth_map_in _ _ _ 0%nat) by (rewrite length_map, length_seq; exact Hj).
  rewrite (nth_map_in _ _ _ 0%nat) by (rewrite length_seq; exact Hj).
  rewrite seq_nth by exact Hj.
  rewrite (nth_map_in _ _ _ 0) by (rewrite Hlk; exact Hj).
  rewrite andb_true_iff, Nat.eqb_eq, qlt_spec. simpl Nat.add.
  split; intros [H1 H2]; split; auto.
Qed.

(** C5 (amended) at face 0 of [[face_a; face_b; face_c]]. *)
Lemma nearest_mask_spec_witness :
  let ss := [face_a; face_b; face_c] in
  Forall (fun s => length (projected_points s) = 2%nat) ss /\
  nth 0 (fst (distance_phase 2 ss)) None = Some 0%nat /\
  exists l, face_mask Nearest 2 ss 0 = MArr l /\ length l = 2%nat /\
    forall j, (j < 2)%nat ->
      (nth j l false = true <->
       argmin (column (snd (distance_phase 2 ss)) j) = 0%nat /\
       nth j (nth 0 (snd (distance_phase 2 ss)) []) 0 < NEAREST_LIMIT).
Proof.
  intro ss.
  assert (Hw : Forall (fun s => length (projected_points s) = 2%nat) ss)
    by (repeat constructor).
  assert (Hk : nth 0 (fst (distance_phase 2 ss)) None = Some 0%nat)
    by (vm_compute; reflexivity).
  split; [exact Hw|]. split; [exact Hk|].
  exact (nearest_mask_spec 2 ss 0 0 2 Hw Hk).
Defined.








(* ---- Texture creation ---- *)

Lemma file_exists_save fs path f : file_exists (save path f fs) path = true.
Proof. simpl. rewrite String.eqb_refl. reflexivity. Qed.

Lemma create_texture_image_empty b3 s m imagesize prefix wp fs :
  existsb (fun x => x) (mask_and m (map (in_bounds (sboundary s)) (projected_points s)))
    = false ->
  create_texture_image b3 s m imagesize prefix wp fs =
    (NO_TEXTURE,
     if file_exists fs (path_join (dirname b3) NO_TEXTURE) then fs
     else save (path_join (dirname b3) NO_TEXTURE) gray_placeholder fs).
Proof. intro H. unfold create_texture_image. cbv zeta. rewrite H. reflexivity. Qed.

(** C7: when no point survives the mask and the bounds test,
    [create_texture_image] returns ["no_texture.png"], writes the 4x4
    [(128, 128, 128)] placeholder only when that file does not exist yet,
    and a later call on another such face returns the same name and leaves
    the directory as it is. *)
Theorem empty_mask_placeholder (b3 : build3d) (s : surface) (m : mask)
    (imagesize : option Z) (prefix : option string) (wp : bool) (fs : fstore) :
  existsb (fun x => x) (mask_and m (map (in_bounds (sboundary s)) (projected_points s)))
    = false ->
  let path := path_join (dirname b3) NO_TEXTURE in
  let fs1 := if file_exists fs path then fs else save path gray_placeholder fs in
  create_texture_image b3 s m imagesize prefix wp fs = (NO_TEXTURE, fs1) /\
  file_exists fs1 path = true /\
  (forall s' m' imagesize' prefix' wp',
     existsb (fun x => x)
       (mask_and m' (map (in_bounds (sboundary s')) (projected_points s'))) = false ->
     create_texture_image b3 s' m' imagesize' prefix' wp' fs1 = (NO_TEXTURE, fs1)).
Proof.
  intros H path fs1.
  assert (Ex : file_exists fs1 path = true).
  { unfold fs1. destruct (file_exists fs path) eqn:E; [exact E|apply file_exists_save]. }
  split; [apply create_texture_image_empty; exact H|].
  split; [exact Ex|].
  intros s' m' imagesize' prefix' wp' H'.
  rewrite (create_texture_image_empty _ _ _ _ _ _ _ H'). fold path. rewrite Ex. reflexivity.
Qed.

(** C7 at [face_a] with the scalar mask [False] on an empty directory. *)
Lemma empty_mask_placeholder_witness :
  let b3 := mkbuild3d "bldg" 2 "out" (1 # 100) [] in
  existsb (fun x => x)
    (mask_and (MBool false) (map (in_bounds (sboundary face_a)) (projected_points face_a)))
    = false /\
  (let path := path_join (dirname b3) NO_TEXTURE in
   let fs1 := if file_exists [] path then [] else save path gray_placeholder [] in
   create_texture_image b3 face_a (MBool false) None None false [] = (NO_TEXTURE, fs1) /\
   file_exists fs1 path = true /\
   (forall s' m' imagesize' prefix' wp',
      existsb (fun x => x)
        (mask_and m' (map (in_bounds (sboundary s')) (projected_points s'))) = false ->
      create_texture_image b3 s' m' imagesize' prefix' wp' fs1 = (NO_TEXTURE, fs1))).
Proof.
  intro b3.
  assert (H : existsb (fun x => x)
    (mask_and (MBool false) (map (in_bounds (sboundary face_a)) (projected_points face_a)))
    = false) by (vm_compute; reflexivity).
  split; [exact H | exact (empty_mask_placeholder b3 face_a (MBool false) None None false [] H)].
Defined.

Lemma qlt_false a b : qlt a b = false -> b <= a.
Proof. intro E. apply Qnot_lt_le. intro C. apply qlt_spec in C. congruence. Qed.

Lemma py_max3_spec a b c :
  py_max3 a b c == Qmax (Qmax a b) c /\ c <= py_max3 a b c.
Proof.
  unfold py_max3.
  destruct (qlt a b) eqn:E1; [apply qlt_spec in E1 | apply qlt_false in E1].
  - rewrite (Q.max_r a b) by (apply Qlt_le_weak; exact E1).
    destruct (qlt b c) eqn:E2; [apply qlt_spec in E2 | apply qlt_false in E2].
    + rewrite Q.max_r by (apply Qlt_le_weak; exact E2). split; apply Qle_refl || reflexivity.
    + rewrite Q.max_l by exact E2. split; [reflexivity | exact E2].
  - rewrite (Q.max_l a b) by exact E1.
    destruct (qlt a c) eqn:E2; [apply qlt_spec in E2 | apply qlt_false in E2].
    + rewrite Q.max_r by (apply Qlt_le_weak; exact E2). split; apply Qle_refl || reflexivity.
    + rewrite Q.max_l by exact E2. split; [reflexivity | exact E2].
Qed.

(** C9: the raster grid size of a face is
    [max(width / (imagesize - 1), height / (imagesize - 1), gridsize)] with
    the bounding-box extents of the face and the current downsampling
    resolution [gridsize] of the point cloud, hence never below that
    resolution. *)
Theorem texture_gridsize_max (b3 : build3d) (bnd : boundary) (imagesize : Z) :
  imagesize <> 1%Z ->
  texture_gridsize b3 bnd imagesize ==
    Qmax (Qmax ((maxx bnd - minx bnd) / (inject_Z imagesize - 1))
               ((maxy bnd - miny bnd) / (inject_Z imagesize - 1)))
         (gridsize b3) /\
  gridsize b3 <= texture_gridsize b3 bnd imagesize.
Proof. intros _. unfold texture_gridsize. apply py_max3_spec. Qed.

(** C9 at the default image size, on the unit box with [gridsize = 0.01]. *)
Lemma texture_gridsize_max_witness :
  let b3 := mkbuild3d "bldg" 2 "out" (1 # 100) [] in
  DEFAULT_IMAGESIZE <> 1%Z /\
  (texture_gridsize b3 unit_bnd DEFAULT_IMAGESIZE ==
     Qmax (Qmax ((maxx unit_bnd - minx unit_bnd) / (inject_Z DEFAULT_IMAGESIZE - 1))
                ((maxy unit_bnd - miny unit_bnd) / (inject_Z DEFAULT_IMAGESIZE - 1)))
          (gridsize b3) /\
   gridsize b3 <= texture_gridsize b3 unit_bnd DEFAULT_IMAGESIZE).
Proof.
  intro b3.
  assert (H : DEFAULT_IMAGESIZE <> 1%Z) by (vm_compute; discriminate).
  split; [exact H | exact (texture_gridsize_max b3 unit_bnd DEFAULT_IMAGESIZE H)].
Defined.

Local Open Scope nat_scope.

Lemma select_combine {X Y} (bs : list bool) (a : list X) (b : list Y) :
  select (MArr bs) (combine a b) = combine (select (MArr bs) a) (select (MArr bs) b).
Proof.
  revert a b. induction bs as [|b0 bs IH]; intros [|x a] [|y b]; simpl; try reflexivity.
  - rewrite combine_nil. reflexivity.
  - specialize (IH a b). simpl in IH. destruct b0; simpl; rewrite IH; reflexivity.
Qed.

Lemma select_In_nth {X} (bs : list bool) (l : list X) (x : X) :
  In x (select (MArr bs) l) ->
  exists j, nth_error bs j = Some true /\ nth_error l j = Some x.
Proof.
  revert l. induction bs as [|b0 bs IH]; intros [|y l]; simpl; try tauto.
  destruct b0; simpl.
  - intros [<-|H]; [exists 0; auto|].
    destruct (IH l H) as (j & Hb & Hl). exists (S j); auto.
  - intro H. destruct (IH l H) as (j & Hb & Hl). exists (S j); auto.
Qed.

Lemma select_length_eq {X Y} (bs : list bool) (a : list X) (b : list Y) :
  length a = length b -> length (select (MArr bs) a) = length (select (MArr bs) b).
Proof.
  revert a b. induction bs as [|b0 bs IH]; intros [|x a] [|y b]; simpl;
    try reflexivity; try discriminate.
  intro E. injection E as E. specialize (IH a b E). simpl in IH.
  destruct b0; simpl; rewrite ?IH; reflexivity.
Qed.

Lemma select_nonempty {X} (bs : list bool) (l : list X) j :
  nth_error bs j = Some true -> j < length l -> select (MArr bs) l <> [].
Proof.
  revert l j. induction bs as [|b0 bs IH]; intros [|y l] [|j]; simpl;
    try discriminate; try lia.
  - intros [= ->] _. discriminate.
  - intros Hb Hj. destruct b0; simpl; [discriminate|].
    apply (IH l j Hb). lia.
Qed.

Lemma existsb_nth_error (l : list bool) :
  existsb (fun x => x) l = true -> exists j, nth_error l j = Some true.
Proof.
  induction l as [|b l IH]; simpl; [discriminate|].
  destruct b; simpl; [exists 0; reflexivity|].
  intro H. destruct (IH H) as [j Hj]. exists (S j). exact Hj.
Qed.

Lemma nth_error_combine_inv {X Y} (a : list X) (b : list Y) j x y :
  nth_error (combine a b) j = Some (x, y) -> nth_error a j = Some x /\ nth_error b j = Some y.
Proof.
  revert b j. induction a as [|x0 a IH]; intros [|y0 b] [|j]; simpl; try discriminate.
  - intros [= -> ->]. auto.
  - apply IH.
Qed.

Lemma mask_and_true (m : mask) (f : pt3 -> bool) (pp : list pt3) j :
  nth_error (mask_and m (map f pp)) j = Some true ->
  mask_at m j = true /\ exists p, nth_error pp j = Some p /\ f p = true.
Proof.
  destruct m as [b|l]; simpl.
  - rewrite map_map, nth_error_map. destruct (nth_error pp j) as [p|] eqn:E; simpl;
      [|discriminate].
    intros [= H]. apply andb_prop in H. destruct H as [-> H]. eauto.
  - rewrite nth_error_map. destruct (nth_error (combine l (map f pp)) j) as [[x y]|] eqn:E;
      simpl; [|discriminate].
    intros [= H]. apply andb_prop in H. destruct H as [-> ->].
    apply nth_error_combine_inv in E. destruct E as [El Ep].
    rewrite nth_error_map in Ep.
    destruct (nth_error pp j) as [p|]; simpl in Ep; [|discriminate].
    injection Ep as Ep. split; [|eauto].
    erewrite nth_error_nth by exact El. reflexivity.
Qed.

Lemma length_mask_and m (arr : list bool) : length (mask_and m arr) <= length arr.
Proof.
  destruct m; simpl; rewrite length_map; [lia|]. rewrite length_combine. lia.
Qed.

Lemma argmin_from_lt (r : list Q) i best bv :
  best < i -> argmin_from r i best bv < i + length r.
Proof.
  revert i best bv. induction r as [|x r IH]; intros i best bv H; simpl; [lia|].
  destruct (qlt x bv); [specialize (IH (S i) i x) | specialize (IH (S i) best bv)]; lia.
Qed.

Lemma argmin_lt (l : list Q) : l <> [] -> argmin l < length l.
Proof.
  destruct l as [|x r]; [congruence|]. intros _. simpl.
  pose proof (argmin_from_lt r 1 0 x). lia.
Qed.

Lemma lookup_save fs path f : lookup (save path f fs) path = Some f.
Proof. unfold lookup, save. simpl. rewrite String.eqb_refl. reflexivity. Qed.

Lemma rgb_raster_pixel xy colors bnd g row q :
  In row (rgb_raster xy colors bnd g) -> In q row ->
  exists x y, q = raster_cell xy colors g x y.
Proof.
  unfold rgb_raster. intros Hr Hq.
  apply in_map_iff in Hr. destruct Hr as (y & <- & _).
  apply in_map_iff in Hq. destruct Hq as (x & <- & _). eauto.
Qed.

(** C10: whatever the mask, every pixel of the texture written for a face
    is either the gray fill [(128, 128, 128)] or the color of one point
    [j] of the cloud that the mask selects and whose projection lies in the
    bounding box of the face. *)
Theorem raster_colors_in_bounds (b3 : build3d) (s : surface) (m : mask)
    (imagesize : option Z) (prefix : option string) (wp : bool) (fs : fstore) :
  length (pcd_colors b3) = length (projected_points s) ->
  existsb (fun x => x) (mask_and m (map (in_bounds (sboundary s)) (projected_points s)))
    = true ->
  let '(name, fs') := create_texture_image b3 s m imagesize prefix wp fs in
  exists rows,
    lookup fs' (path_join (dirname b3) name) = Some (PNG rows) /\
    forall row q, In row rows -> In q row ->
      q = GRAY \/
      exists j p c, nth_error (projected_points s) j = Some p /\
                    nth_error (pcd_colors b3) j = Some c /\
                    mask_at m j = true /\ in_bounds (sboundary s) p = true /\
                    q = to_pixel c.
Proof.
  intros Hlen Hex. unfold create_texture_image. cbv zeta. rewrite Hex. simpl negb.
  cbv iota.
  set (fm := mask_and m (map (in_bounds (sboundary s)) (projected_points s))) in *.
  set (fp := select (MArr fm) (projected_points s)).
  set (fc := select (MArr fm) (pcd_colors b3)).
  set (g := texture_gridsize b3 (sboundary s) _).
  eexists. split; [apply lookup_save|].
  intros row q Hr Hq.
  destruct (rgb_raster_pixel _ _ _ _ _ _ Hr Hq) as (x & y & ->).
  unfold raster_cell. cbv zeta.
  destruct (qlt _ _); [left; reflexivity|right].
  set (xy := map (fun p => (px p, py p)) fp).
  set (i := nearest_index xy x y).
  assert (Lfc : length fc = length fp).
  { unfold fc, fp. apply select_length_eq. exact Hlen. }
  assert (Hne : fp <> []).
  { destruct (existsb_nth_error _ Hex) as [j Hj].
    apply (select_nonempty _ _ j Hj).
    assert (j < length fm) by (apply nth_error_Some; congruence).
    pose proof (length_mask_and m (map (in_bounds (sboundary s)) (projected_points s))).
    rewrite length_map in H0. fold fm in H0. lia. }
  assert (Hi : i < length fp).
  { unfold i, nearest_index.
    pose proof (argmin_lt (map (dist2 x y) xy)) as A.
    rewrite !length_map in A. unfold xy in A. rewrite length_map in A. apply A.
    destruct fp; [congruence|discriminate]. }
  assert (Hin : In (nth i fp (mkpt 0 0 0), nth i fc (0, 0, 0)%Q) (combine fp fc)).
  { rewrite <- combine_nth by congruence. apply nth_In.
    rewrite length_combine. lia. }
  unfold fp, fc in Hin. rewrite <- select_combine in Hin.
  destruct (select_In_nth _ _ _ Hin) as (j & Hb & Hpc).
  apply nth_error_combine_inv in Hpc. destruct Hpc as [Hp Hc].
  destruct (mask_and_true _ _ _ _ Hb) as (Hm & p & Hp' & Hin_b).
  rewrite Hp in Hp'. injection Hp' as <-.
  exists j, (nth i fp (mkpt 0 0 0)), (nth i fc (0, 0, 0)%Q). auto.
Qed.

(** C10 on [face_b], whose first point [(5, 5)] lies outside the unit box,
    with the mask [True] and a 2-pixel image. *)
Lemma raster_colors_in_bounds_witness :
  let b3 := mkbuild3d "bldg" 2 "out" (1 # 100) [(1, 0, 0); (0, 1, 0)]%Q in
  length (pcd_colors b3) = length (projected_points face_b) /\
  existsb (fun x => x)
    (mask_and (MBool true) (map (in_bounds (sboundary face_b)) (projected_points face_b)))
    = true /\
  (let '(name, fs') := create_texture_image b3 face_b (MBool true) (Some 2%Z) None false [] in
   exists rows,
     lookup fs' (path_join (dirname b3) name) = Some (PNG rows) /\
     forall row q, In row rows -> In q row ->
       q = GRAY \/
       exists j p c, nth_error (projected_points face_b) j = Some p /\
                     nth_error (pcd_colors b3) j = Some c /\
                     mask_at (MBool true) j = true /\ in_bounds (sboundary face_b) p = true /\
                     q = to_pixel c).
Proof.
  intro b3.
  assert (H1 : length (pcd_colors b3) = length (projected_points face_b)) by reflexivity.
  assert (H2 : existsb (fun x => x)
    (mask_and (MBool true) (map (in_bounds (sboundary face_b)) (projected_points face_b)))
    = true) by (vm_compute; reflexivity).
  split; [exact H1|]. split; [exact H2|].
  exact (raster_colors_in_bounds b3 face_b (MBool true) (Some 2%Z) None false [] H1 H2).
Defined.

(* Two points of one voxel at grid size [1]: a red one at the origin and a
   green one at [(0.25, 0.25)]. *)
Definition two_point_bldg : build3d :=
  mkbuild3d "b" 2 "out" (1 # 100) [(1 # 2, 0, 0); (0, 1 # 2, 0)]%Q.
Definition two_point_face : surface :=
  mksurface 0 unit_bnd [] [mkpt 0 0 0; mkpt (1 # 4) (1 # 4) 0].

(** C4 (counterexample): on a face whose grid size [1] exceeds twice the
    cloud's [0.01], the two masked points are merged by
    [voxel_down_sample] into one point of color [(64, 64, 0)], written to
    the PLY file, while the PNG raster is computed from the two points
    before downsampling: its pixel at the origin takes the red
    [(128, 0, 0)] of the first point, a color of no downsampled point. *)
Theorem raster_ignores_downsampling :
  let '(name, fs') :=
    create_texture_image two_point_bldg two_point_face (MBool true) (Some 2%Z) None true [] in
  qlt (gridsize two_point_bldg * 2)
      (texture_gridsize two_point_bldg (sboundary two_point_face) 2) = true /\
  name = "b_000.png"%string /\
  exists d rows,
    lookup fs' "out/b_000.ply" = Some (PLY d) /\
    lookup fs' "out/b_000.png" = Some (PNG rows) /\
    map (fun e => to_pixel (snd e)) d = [(64, 64, 0)%Z] /\
    rows = [[(128, 0, 0)%Z; (0, 128, 0)%Z]; [(0, 128, 0)%Z; (0, 128, 0)%Z]].
Proof.
  vm_compute. split; [reflexivity|]. split; [reflexivity|].
  do 2 eexists. split; [reflexivity|]. split; [reflexivity|]. split; reflexivity.
Qed.
End PipelineFacts.

Module ZukakuFacts.
Import Pipeline Zukaku.
Local Open Scope Z_scope.

Ltac zlia := Z.div_mod_to_equations; lia.

Ltac zbool := repeat match goal with
 | |- context [Z.leb ?a ?b] =>
     first [rewrite (proj2 (Z.leb_le a b)) by zlia | rewrite (proj2 (Z.leb_gt a b)) by zlia]
 | |- context [Z.ltb ?a ?b] =>
     first [rewrite (proj2 (Z.ltb_lt a b)) by zlia | rewrite (proj2 (Z.ltb_ge a b)) by zlia]
 | |- context [Z.eqb ?a ?b] =>
     first [rewrite (proj2 (Z.eqb_eq a b)) by zlia | rewrite (proj2 (Z.eqb_neq a b)) by zlia]
 end.

Lemma py_int_inject (z : Z) : py_int (inject_Z z) = z.
Proof.
  unfold py_int, qle. destruct (Qle_bool 0 (inject_Z z)) eqn:E.
  - apply Qfloor_Z.
  - rewrite <- inject_Z_opp, Qfloor_Z. lia.
Qed.

Lemma py_int_inject_opp (z : Z) : py_int (- inject_Z z) = - z.
Proof. rewrite <- inject_Z_opp. apply py_int_inject. Qed.

Lemma qabs_small (z b : Z) : - b < z < b -> qle (b # 1) (Qabs (inject_Z z)) = false.
Proof.
  intro H. unfold qle. apply not_true_iff_false. rewrite Qle_bool_iff.
  change (Qabs (inject_Z z)) with (inject_Z (Z.abs z)). change (b # 1)%Q with (inject_Z b). rewrite <- Zle_Qle. lia.
Qed.

Lemma fmt02 (s : Z) : 1 <= s <= 99 -> fmt_d 2 true s = [48 + s / 10; 48 + s mod 10].
Proof.
  intro H. unfold fmt_d. rewrite Z.abs_eq by lia. zbool.
  unfold digits.
  destruct (Z.ltb_spec s 10).
  - simpl digits_aux. zbool. simpl.
    rewrite Z.div_small, Z.mod_small by lia. reflexivity.
  - assert (P : Z.log2 10 <= Z.log2 s) by (apply Z.log2_le_mono; lia).
    change (Z.log2 10) with 3 in P.
    destruct (Z.to_nat (Z.log2 s)) as [|f] eqn:F; [lia|].
    simpl digits_aux. zbool. simpl digits_aux.
    assert (D : s / 10 < 10) by (apply Z.div_lt_upper_bound; lia).
    zbool. simpl. rewrite (Z.mod_small (s / 10)) by (split; [apply Z.div_pos|]; lia).
    reflexivity.
Qed.

Lemma take_while_all p l : forallb p l = true -> take_while p l = l.
Proof.
  induction l as [|c r IH]; simpl; [reflexivity|].
  intro H. apply andb_prop in H. destruct H as [-> H]. rewrite IH; auto.
Qed.

Lemma upper_not_digit c : is_upper c = true -> is_digit c = false.
Proof.
  unfold is_upper, is_digit. intro H. apply andb_prop in H. destruct H as [H _].
  apply Z.leb_le in H. apply andb_false_intro2. apply Z.leb_gt. lia.
Qed.

Lemma re_match_plain k0 k1 nums :
  is_upper k0 = true -> is_upper k1 = true -> forallb is_num_char nums = true ->
  re_match (k0 :: k1 :: nums) = Some (None, [k0; k1], nums).
Proof.
  intros H0 H1 Hn. unfold re_match, match_rest.
  rewrite (upper_not_digit _ H0), H0, H1, take_while_all by exact Hn. reflexivity.
Qed.

Lemma re_match_sc d0 d1 k0 k1 nums :
  is_digit d0 = true -> is_digit d1 = true ->
  is_upper k0 = true -> is_upper k1 = true -> forallb is_num_char nums = true ->
  re_match (d0 :: d1 :: k0 :: k1 :: nums) = Some (Some [d0; d1], [k0; k1], nums).
Proof.
  intros D0 D1 H0 H1 Hn. unfold re_match, match_rest.
  rewrite D0, D1, H0, H1, take_while_all by exact Hn. reflexivity.
Qed.

Ltac chars := cbv [is_upper is_digit is_num_char forallb]; zbool; reflexivity.

Ltac qz := cbv [Qeq Qle Qlt Qminus Qplus Qopp Qmult Qdiv Qinv inject_Z]; cbn [Qnum Qden]; zlia.

Lemma int_of_digits_2 s : 0 <= s <= 99 -> int_of_digits [48 + s / 10; 48 + s mod 10] = s.
Proof. intro H. unfold int_of_digits. cbn [fold_left]. zlia. Qed.

Lemma get_code_extent_all (x y : Z) (sc : option Z) (level : Z) :
  -160000 < x < 160000 -> -300000 < y < 300000 ->
  In level [50000; 5000; 2500; 500; 250; 50] ->
  match sc with Some s => 0 <= s <= 99 | None => True end ->
  exists code, get_code (inject_Z x) (inject_Z y) sc level = Some code /\
    match get_extent code with
    | Some (x0, y0, x1, y1, crs, lv) =>
        crs = match sc with
              | Some s => if s =? 0 then None else Some (EPSG ++ fmt_d 4 false (6668 + s))
              | None => None
              end /\
        lv == inject_Z level /\
        x1 - x0 == inject_Z level * (4 # 5) /\ y1 - y0 == inject_Z level * (3 # 5) /\
        (x0 <= inject_Z x < x1)%Q /\ (y0 < inject_Z y <= y1)%Q
    | None => False
    end.
Proof.
  intros Hx Hy Hl Hs. unfold get_code.
  rewrite (qabs_small x 160000), (qabs_small y 300000) by lia. simpl orb. cbv iota.
  rewrite py_int_inject, py_int_inject_opp.
  destruct Hl as [<-|[<-|[<-|[<-|[<-|[<-|[]]]]]]]; zbool; cbv zeta.
  all: destruct sc as [s|].
  all: try (destruct (Z.eqb_spec s 0) as [->|Hs0]; [cbn [app]|rewrite fmt02 by lia; cbn [app]]).
  all: try (cbn [app]).
  all: eexists; split; [reflexivity|].
  all: repeat match goal with
         |- context [if Z.ltb ?a ?b then _ else _] => destruct (Z.ltb_spec a b)
       end.
  all: unfold get_extent.
  all: first [rewrite re_match_sc by chars | rewrite re_match_plain by chars].
  all: repeat progress (cbn [nth Datatypes.length Nat.leb Nat.eqb existsb orb andb negb]; zbool).
  all: split; [try rewrite int_of_digits_2 by lia; reflexivity|].
  all: repeat split; qz.
Qed.

(** For a point within the ranges [get_code] accepts and a level whose
    sheets [get_extent] parses, [get_extent] of the code recovers the
    sheet: the CRS of the system code ([None] without one or for system
    code [0]), the level, a sheet of [0.8 * level] by [0.6 * level] metres,
    and one that contains the point. *)
Theorem get_code_extent (x y : Z) (sc : option Z) (level : Z) :
  -160000 < x < 160000 -> -300000 < y < 300000 ->
  In level [50000; 5000; 2500; 500; 250; 50] ->
  match sc with Some s => 0 <= s <= 99 | None => True end ->
  exists code, get_code (inject_Z x) (inject_Z y) sc level = Some code /\
    match get_extent code with
    | Some (x0, y0, x1, y1, crs, lv) =>
        crs = match sc with
              | Some s => if s =? 0 then None else Some (EPSG ++ fmt_d 4 false (6668 + s))
              | None => None
              end /\
        lv == inject_Z level /\
        x1 - x0 == inject_Z level * (4 # 5) /\ y1 - y0 == inject_Z level * (3 # 5) /\
        (x0 <= inject_Z x < x1)%Q /\ (y0 < inject_Z y <= y1)%Q
    | None => False
    end.
Proof. exact (get_code_extent_all x y sc level). Qed.

Lemma get_code_extent_witness :
  exists code, get_code (inject_Z 32400) (inject_Z (-129000)) (Some 8) 50 = Some code /\
    match get_extent code with
    | Some (x0, y0, x1, y1, crs, lv) =>
        crs = Some (EPSG ++ fmt_d 4 false (6668 + 8)) /\
        lv == inject_Z 50 /\
        x1 - x0 == inject_Z 50 * (4 # 5) /\ y1 - y0 == inject_Z 50 * (3 # 5) /\
        (x0 <= inject_Z 32400 < x1)%Q /\ (y0 < inject_Z (-129000) <= y1)%Q
    | None => False
    end.
Proof.
  apply (get_code_extent 32400 (-129000) (Some 8) 50); [lia | lia | simpl; tauto | lia].
Defined.

Lemma qle_false_lt a b : (a < b)%Q -> qle b a = false.
Proof.
  intro H. unfold qle. apply not_true_iff_false. rewrite Qle_bool_iff.
  intro C. exact (Qlt_not_le _ _ H C).
Qed.

Lemma py_int_bound (q : Q) (b : Z) : 0 < b -> (Qabs q < inject_Z b)%Q -> - b < py_int q < b.
Proof.
  intros Hb H. unfold py_int, qle. destruct (Qle_bool 0 q) eqn:E.
  - apply Qle_bool_iff in E. rewrite Qabs_pos in H by exact E.
    pose proof (Qfloor_le q) as F1. pose proof (Qlt_floor q) as F2.
    assert (A : (inject_Z (Qfloor q) < inject_Z b)%Q) by (eapply Qle_lt_trans; eassumption).
    assert (B : (0 < inject_Z (Qfloor q + 1))%Q) by (eapply Qle_lt_trans; eassumption).
    rewrite <- Zlt_Qlt in A. change 0%Q with (inject_Z 0) in B. rewrite <- Zlt_Qlt in B. lia.
  - assert (E' : (q <= 0)%Q).
    { apply Qlt_le_weak, Qnot_le_lt. intro C. apply Qle_bool_iff in C. congruence. }
    rewrite Qabs_neg in H by exact E'.
    pose proof (Qfloor_le (- q)) as F1. pose proof (Qlt_floor (- q)) as F2.
    assert (A : (inject_Z (Qfloor (- q)) < inject_Z b)%Q) by (eapply Qle_lt_trans; eassumption).
    assert (B : (0 < inject_Z (Qfloor (- q) + 1))%Q).
    { eapply Qle_lt_trans; [|exact F2]. rewrite <- (Qopp_opp 0). apply Qopp_le_compat. exact E'. }
    rewrite <- Zlt_Qlt in A. change 0%Q with (inject_Z 0) in B. rewrite <- Zlt_Qlt in B. lia.
Qed.

Lemma re_match_plain_stop k0 k1 e0 e1 c r :
  is_upper k0 = true -> is_upper k1 = true -> is_num_char e0 = true ->
  is_num_char e1 = true -> is_num_char c = false ->
  re_match [k0; k1; e0; e1; c; r] = re_match [k0; k1; e0; e1].
Proof.
  intros H0 H1 E0 E1 Hc.
  rewrite (re_match_plain k0 k1 [e0; e1]) by first [assumption | change (forallb is_num_char [e0; e1]) with (is_num_char e0 && (is_num_char e1 && true)); rewrite E0, E1; reflexivity].
  unfold re_match, match_rest. rewrite (upper_not_digit _ H0), H0, H1.
  cbn [take_while option_map andb]. rewrite E0, E1, Hc. reflexivity.
Qed.

Lemma re_match_sc_stop d0 d1 k0 k1 e0 e1 c r :
  is_digit d0 = true -> is_digit d1 = true ->
  is_upper k0 = true -> is_upper k1 = true -> is_num_char e0 = true ->
  is_num_char e1 = true -> is_num_char c = false ->
  re_match [d0; d1; k0; k1; e0; e1; c; r] = re_match [d0; d1; k0; k1; e0; e1].
Proof.
  intros D0 D1 H0 H1 E0 E1 Hc.
  rewrite (re_match_sc d0 d1 k0 k1 [e0; e1]) by first [assumption | change (forallb is_num_char [e0; e1]) with (is_num_char e0 && (is_num_char e1 && true)); rewrite E0, E1; reflexivity].
  unfold re_match, match_rest. rewrite D0, D1, H0, H1.
  cbn [take_while option_map andb]. rewrite E0, E1, Hc. reflexivity.
Qed.

Lemma get_code_level1000_all (x y : Q) (sc : option Z) :
  (Qabs x < 160000)%Q -> (Qabs y < 300000)%Q ->
  match sc with Some s => 0 <= s <= 99 | None => True end ->
  exists code,
    get_code x y sc 5000 = Some code /\
    let a := 548 + py_int (- y) mod 30000 mod 3000 / 600 in
    let b := 65 + py_int x mod 40000 mod 4000 / 800 in
    get_code x y sc 1000 = Some (code ++ [a; b]) /\
    548 <= a <= 552 /\ 65 <= b <= 69 /\
    get_extent (code ++ [a; b]) = get_extent code.
Proof.
  intros Hx Hy Hs. unfold get_code.
  rewrite (qle_false_lt _ _ Hx), (qle_false_lt _ _ Hy). simpl orb. cbv iota.
  pose proof (py_int_bound x 160000 ltac:(lia) Hx) as Bx.
  assert (Hy' : (Qabs (- y) < inject_Z 300000)%Q) by (rewrite Qabs_opp; exact Hy).
  pose proof (py_int_bound (- y) 300000 ltac:(lia) Hy') as By.
  set (X := py_int x) in *. set (Y := py_int (- y)) in *. clearbody X Y.
  zbool. cbv zeta.
  destruct sc as [s|].
  all: try (destruct (Z.eqb_spec s 0) as [->|Hs0]; [cbn [app]|rewrite fmt02 by lia; cbn [app]]).
  all: try (cbn [app]).
  all: eexists; split; [reflexivity|]; split; [reflexivity|].
  all: split; [zlia|]; split; [zlia|].
  all: unfold get_extent; cbn [app].
  all: match goal with
       | |- context [re_match [?d0; ?d1; ?k0; ?k1; ?e0; ?e1; ?c; ?r]] =>
           rewrite (re_match_sc_stop d0 d1 k0 k1 e0 e1 c r) by chars
       | |- context [re_match [?k0; ?k1; ?e0; ?e1; ?c; ?r]] =>
           rewrite (re_match_plain_stop k0 k1 e0 e1 c r) by chars
       end.
  all: reflexivity.
Qed.

(** At level [1000], [get_code] appends to the level-[5000] code the two
    characters [chr(548 + y // 600)] and [chr(65 + x // 800)], where [y]
    and [x] are the truncated coordinates ([y] negated) reduced modulo
    [30000] and [3000], resp. [40000] and [4000]: the first has code point
    [548] to [552] (not the digits [0]-[4] of the comment), the second is
    a letter [A]-[E]. [get_extent] does not read that pair: it gives the
    extent of the level-[5000] sheet. *)
Theorem get_code_level1000 (x y : Q) (sc : option Z) :
  (Qabs x < 160000)%Q -> (Qabs y < 300000)%Q ->
  match sc with Some s => 0 <= s <= 99 | None => True end ->
  exists code,
    get_code x y sc 5000 = Some code /\
    let a := 548 + py_int (- y) mod 30000 mod 3000 / 600 in
    let b := 65 + py_int x mod 40000 mod 4000 / 800 in
    get_code x y sc 1000 = Some (code ++ [a; b]) /\
    548 <= a <= 552 /\ 65 <= b <= 69 /\
    get_extent (code ++ [a; b]) = get_extent code.
Proof. exact (get_code_level1000_all x y sc). Qed.

(* -1 < x < 0 *)
Lemma py_int_neg_fraction (x : Q) : (-1 < x < 0)%Q -> py_int x = 0.
Proof.
  intros [H1 H2]. unfold py_int. rewrite (qle_false_lt _ _ H2).
  pose proof (Qfloor_le (- x)) as F1. pose proof (Qlt_floor (- x)) as F2.
  assert (A : (inject_Z (Qfloor (- x)) < inject_Z 1)%Q).
  { eapply Qle_lt_trans; [exact F1|]. rewrite <- (Qopp_opp (inject_Z 1)).
    apply Qopp_lt_compat. exact H1. }
  assert (B : (inject_Z 0 < inject_Z (Qfloor (- x) + 1))%Q).
  { eapply Qlt_trans; [|exact F2]. change (inject_Z 0) with (- 0)%Q.
    apply Qopp_lt_compat. exact H2. }
  rewrite <- Zlt_Qlt in A, B. lia.
Qed.

(** [get_code] truncates the coordinates towards zero ([int]), so a
    point with [-1 < x < 0] gets the code of a sheet that starts at
    [x = 0]: [get_extent] of its code gives a sheet left edge greater
    than [x], the point lies outside its sheet. *)
Theorem get_code_negative_fraction (x y : Q) (sc : option Z) :
  (-1 < x < 0)%Q -> (Qabs y < 300000)%Q ->
  match sc with Some s => 0 <= s <= 99 | None => True end ->
  exists code, get_code x y sc 5000 = Some code /\
    match get_extent code with
    | Some (x0, _, _, _, _, _) => (x < x0)%Q
    | None => False
    end.
Proof.
  intros Hx Hy Hs.
  assert (Hx' : (Qabs x < 160000)%Q).
  { rewrite Qabs_neg by (apply Qlt_le_weak; apply Hx).
    apply (Qlt_trans _ 1); [|reflexivity].
    rewrite <- (Qopp_opp 1). apply Qopp_lt_compat. apply Hx. }
  unfold get_code.
  rewrite (qle_false_lt _ _ Hx'), (qle_false_lt _ _ Hy). simpl orb. cbv iota.
  rewrite (py_int_neg_fraction x Hx).
  assert (Hy' : (Qabs (- y) < inject_Z 300000)%Q) by (rewrite Qabs_opp; exact Hy).
  pose proof (py_int_bound (- y) 300000 ltac:(lia) Hy') as By.
  set (Y := py_int (- y)) in *. clearbody Y.
  zbool. cbv zeta.
  destruct sc as [s|].
  all: try (destruct (Z.eqb_spec s 0) as [->|Hs0]; [cbn [app]|rewrite fmt02 by lia; cbn [app]]).
  all: try (cbn [app]).
  all: eexists; split; [reflexivity|].
  all: unfold get_extent.
  all: first [rewrite re_match_sc by chars | rewrite re_match_plain by chars].
  all: repeat progress (cbn [nth Datatypes.length Nat.leb Nat.eqb existsb orb andb negb]; zbool).
  all: eapply Qlt_le_trans; [apply Hx|]; apply Qle_bool_imp_le; vm_compute; reflexivity.
Qed.
Lemma get_code_level1000_witness :
  exists code,
    get_code (1234 # 10) (-(56789 # 10)) (Some 9) 5000 = Some code /\
    let a := 548 + py_int (- (-(56789 # 10))) mod 30000 mod 3000 / 600 in
    let b := 65 + py_int (1234 # 10) mod 40000 mod 4000 / 800 in
    get_code (1234 # 10) (-(56789 # 10)) (Some 9) 1000 = Some (code ++ [a; b]) /\
    548 <= a <= 552 /\ 65 <= b <= 69 /\
    get_extent (code ++ [a; b]) = get_extent code.
Proof.
  apply (get_code_level1000 (1234 # 10) (-(56789 # 10)) (Some 9));
    [vm_compute; reflexivity | vm_compute; reflexivity | lia].
Defined.
Lemma get_code_negative_fraction_witness :
  exists code, get_code (- (1 # 2)) (1 # 2) None 5000 = Some code /\
    match get_extent code with
    | Some (x0, _, _, _, _, _) => (- (1 # 2) < x0)%Q
    | None => False
    end.
Proof.
  apply (get_code_negative_fraction (- (1 # 2)) (1 # 2) None);
    [split; reflexivity | reflexivity | exact I].
Defined.

End ZukakuFacts.

Module TexturesFacts.
Import Pipeline Textures.

Fixpoint chars (s : string) : list ascii :=
  match s with EmptyString => [] | String c r => c :: chars r end.

Lemma chars_app a b : chars (a ++ b) = chars a ++ chars b.
Proof. induction a; simpl; congruence. Qed.

Lemma chars_inj a b : chars a = chars b -> a = b.
Proof.
  revert b; induction a as [|c a IH]; destruct b as [|d b]; simpl; try discriminate; auto.
  intro H. injection H as -> H. f_equal. auto.
Qed.

(** Reading a decimal string back. *)
Definition digit_val (c : ascii) : nat := nat_of_ascii c - 48.
Definition dval (l : list ascii) : nat := fold_left (fun v c => v * 10 + digit_val c) l 0.

Lemma fold_dval l a :
  fold_left (fun v c => v * 10 + digit_val c) l a = a * 10 ^ length l + dval l.
Proof.
  unfold dval. revert a; induction l as [|c l IH]; intro a; cbn [fold_left length].
  - rewrite Nat.pow_0_r. lia.
  - rewrite (IH (a * 10 + digit_val c)), (IH (0 * 10 + digit_val c)).
    rewrite Nat.pow_succ_r'. lia.
Qed.

Lemma dval_cons c l : dval (c :: l) = digit_val c * 10 ^ length l + dval l.
Proof. unfold dval at 1. simpl. rewrite fold_dval. reflexivity. Qed.

Lemma digit_val_of k : k < 10 -> digit_val (ascii_of_nat (48 + k)) = k.
Proof.
  intro H. unfold digit_val. rewrite nat_ascii_embedding by lia. lia.
Qed.

Lemma dec_aux_val fuel n acc :
  n < fuel -> dval (chars (dec_aux fuel n acc)) = n * 10 ^ length (chars acc) + dval (chars acc).
Proof.
  revert n acc; induction fuel as [|f IH]; intros n acc H; [lia|].
  cbn [dec_aux]. destruct (Nat.ltb_spec n 10) as [Hn|Hn].
  - cbn [chars]. rewrite dval_cons, digit_val_of by (apply Nat.mod_upper_bound; lia).
    rewrite Nat.mod_small by lia. reflexivity.
  - rewrite IH.
    + cbn [chars]. rewrite dval_cons, digit_val_of by (apply Nat.mod_upper_bound; lia).
      simpl length. rewrite Nat.pow_succ_r'.
      pose proof (Nat.div_mod_eq n 10). nia.
    + assert (n / 10 < n) by (apply Nat.div_lt; lia). lia.
Qed.

Lemma dec_val n : dval (chars (dec n)) = n.
Proof. unfold dec. rewrite dec_aux_val by lia. cbn [chars length]. rewrite Nat.pow_0_r. unfold dval. cbn [fold_left]. lia. Qed.

Lemma dval_zero l : dval (chars "0" ++ l) = dval l.
Proof. simpl. rewrite dval_cons. reflexivity. Qed.

Lemma pad3_val n : dval (chars (pad3 n)) = n.
Proof.
  unfold pad3. destruct (n <? 10); [|destruct (n <? 100)];
    rewrite ?chars_app; cbn [chars app]; rewrite ?dval_cons;
    change (digit_val "0"%char) with 0; rewrite dec_val; lia.
Qed.

Lemma pad3_inj n m : pad3 n = pad3 m -> n = m.
Proof. intro H. rewrite <- (pad3_val n), <- (pad3_val m), H. reflexivity. Qed.

Lemma dec_aux_S f n acc :
  dec_aux (S f) n acc =
  if Nat.ltb n 10 then String (ascii_of_nat (48 + n mod 10)) acc
  else dec_aux f (n / 10) (String (ascii_of_nat (48 + n mod 10)) acc).
Proof. reflexivity. Qed.

(** The last character of [dec n] is a digit. *)
Lemma dec_aux_last f n acc :
  exists l, chars (dec_aux (S f) n acc) = l ++ ascii_of_nat (48 + n mod 10) :: chars acc.
Proof.
  revert n acc; induction f as [|f IH]; intros n acc; rewrite dec_aux_S.
  - destruct (n <? 10); exists []; reflexivity.
  - destruct (n <? 10); [exists []; reflexivity|].
    destruct (IH (n / 10) (String (ascii_of_nat (48 + n mod 10)) acc)) as [l E].
    rewrite E. exists (l ++ [ascii_of_nat (48 + n / 10 mod 10)]).
    rewrite <- app_assoc. reflexivity.
Qed.

Lemma pad3_last n : exists l k, k < 10 /\ chars (pad3 n) = l ++ [ascii_of_nat (48 + k)].
Proof.
  assert (D : exists l k, k < 10 /\ chars (dec n) = l ++ [ascii_of_nat (48 + k)]).
  { unfold dec. destruct (dec_aux_last n n "") as [l E]. exists l, (n mod 10).
    split; [apply Nat.mod_upper_bound; lia | exact E]. }
  destruct D as (l & k & Hk & E).
  unfold pad3. destruct (n <? 10); [|destruct (n <? 100)]; rewrite ?chars_app, E.
  - exists (chars "00" ++ l), k. rewrite app_assoc. auto.
  - exists (chars "0" ++ l), k. rewrite app_assoc. auto.
  - exists l, k. auto.
Qed.

Lemma path_join_inj d a b : path_join d a = path_join d b -> a = b.
Proof.
  unfold path_join. intro H. apply (f_equal chars) in H. rewrite !chars_app in H.
  apply app_inv_head, app_inv_head in H. apply chars_inj. exact H.
Qed.

Definition tex_name (p : string) (n : nat) : string := (p ++ "_" ++ pad3 n ++ ".png")%string.

Lemma tex_name_inj p n m : tex_name p n = tex_name p m -> n = m.
Proof.
  unfold tex_name. intro H. apply (f_equal chars) in H. rewrite !chars_app in H.
  apply app_inv_head in H. simpl in H. injection H as H.
  apply app_inv_tail in H. apply pad3_inj, chars_inj, H.
Qed.

Lemma tex_name_not_placeholder p n : tex_name p n <> NO_TEXTURE.
Proof.
  unfold tex_name, NO_TEXTURE. intro H. apply (f_equal chars) in H.
  rewrite !chars_app in H. destruct (pad3_last n) as (l & k & Hk & E). rewrite E in H.
  change (chars "no_texture.png") with (chars "no_texture" ++ chars ".png") in H.
  rewrite !app_assoc in H. apply app_inv_tail in H.
  apply (f_equal (@rev ascii)) in H. rewrite !rev_app_distr in H. cbn [rev app chars] in H.
  injection H as H _.
  do 10 (destruct k as [|k]; [discriminate H|]). lia.
Qed.

Lemma lookup_save_other fs path f q :
  path <> q -> lookup (save path f fs) q = lookup fs q.
Proof.
  intro H. unfold lookup, save. cbn [find].
  destruct (String.eqb_spec path q) as [E|_]; [contradiction|].
  induction fs as [|[p0 f0] r IH]; [reflexivity|]. cbn [filter].
  destruct (String.eqb_spec p0 path) as [->|N]; cbn [negb].
  - rewrite IH. cbn [find]. destruct (String.eqb_spec path q); [contradiction|reflexivity].
  - cbn [find]. destruct (String.eqb p0 q); [reflexivity|exact IH].
Qed.

Definition tex_prefix (b3 : build3d) (prefix : option string) : string :=
  match prefix with Some (String _ _ as p) => p | _ => bldid b3 end.

(** The two outcomes of a [create_texture_image] call without point-cloud
    output: the placeholder, or the face's own PNG, whose content does not
    depend on the directory. *)
Lemma create_texture_image_cases b3 s m is p :
  (forall fs, fst (create_texture_image b3 s m is p false fs) = NO_TEXTURE /\
     forall q, q <> path_join (dirname b3) NO_TEXTURE ->
     lookup (snd (create_texture_image b3 s m is p false fs)) q = lookup fs q) \/
  (exists f, forall fs,
     create_texture_image b3 s m is p false fs =
     (tex_name (tex_prefix b3 p) (face_number s),
      save (path_join (dirname b3) (tex_name (tex_prefix b3 p) (face_number s))) f fs)).
Proof.
  destruct (existsb (fun x => x) (mask_and m (map (in_bounds (sboundary s)) (projected_points s))))
    eqn:E.
  - right. eexists. intro fs. unfold create_texture_image. cbv zeta. rewrite E.
    cbv iota beta. reflexivity.
  - left. intro fs. rewrite PipelineFacts.create_texture_image_empty by exact E.
    split; [reflexivity|]. intros q Hq. cbn [snd].
    destruct (file_exists fs _); [reflexivity|]. apply lookup_save_other. congruence.
Qed.

Lemma texture_images_rest b3 ms ss is p fs q :
  (forall s, In s ss -> q <> path_join (dirname b3) (tex_name (tex_prefix b3 p) (face_number s))) ->
  q <> path_join (dirname b3) NO_TEXTURE ->
  lookup (snd (texture_images b3 ms ss is p fs)) q = lookup fs q.
Proof.
  revert ms fs; induction ss as [|s r IH]; intros ms fs Hs Hq;
    destruct ms as [|m mr]; try reflexivity. cbn [texture_images].
  destruct (create_texture_image_cases b3 s m is p) as [C|[f C]].
  - destruct (C fs) as [_ L].
    destruct (create_texture_image b3 s m is p false fs) as [name fs1] eqn:E.
    destruct (texture_images b3 mr r is p fs1) as [names fs2] eqn:E2. cbn [snd].
    replace fs2 with (snd (texture_images b3 mr r is p fs1)) by (rewrite E2; reflexivity).
    rewrite IH by (intros; auto with datatypes). cbn [snd] in L. apply L, Hq.
  - rewrite C. destruct (texture_images b3 mr r is p _) as [names fs2] eqn:E2. cbn [snd].
    replace fs2 with (snd (texture_images b3 mr r is p
                             (save (path_join (dirname b3) (tex_name (tex_prefix b3 p) (face_number s))) f fs)))
      by (rewrite E2; reflexivity).
    rewrite IH by (intros; auto with datatypes).
    apply lookup_save_other. intro H. apply (Hs s); [left; reflexivity | congruence].
Qed.

Lemma texture_images_nth b3 ms ss is p fs n name :
  nth_error (fst (texture_images b3 ms ss is p fs)) n = Some name ->
  exists s m, nth_error ss n = Some s /\ nth_error ms n = Some m.
Proof.
  revert ms n fs; induction ss as [|s r IH]; intros ms n fs H;
    destruct ms as [|m mr]; cbn [texture_images fst] in H; try (destruct n; discriminate).
  destruct (create_texture_image b3 s m is p false fs) as [nm fs1].
  destruct (texture_images b3 mr r is p fs1) as [names fs2] eqn:E.
  destruct n as [|n]; [exists s, m; split; reflexivity|]. cbn [fst nth_error] in H.
  replace names with (fst (texture_images b3 mr r is p fs1)) in H by (rewrite E; reflexivity).
  exact (IH _ _ _ H).
Qed.

Lemma create_texture_image_name b3 s m is p fs fs' :
  fst (create_texture_image b3 s m is p false fs) =
  fst (create_texture_image b3 s m is p false fs').
Proof.
  destruct (create_texture_image_cases b3 s m is p) as [C|[f C]].
  - rewrite (proj1 (C fs)), (proj1 (C fs')). reflexivity.
  - rewrite !C. reflexivity.
Qed.

Lemma texture_images_name b3 ms ss is p fs n name s m :
  nth_error (fst (texture_images b3 ms ss is p fs)) n = Some name ->
  nth_error ss n = Some s -> nth_error ms n = Some m ->
  name = fst (create_texture_image b3 s m is p false fs).
Proof.
  revert ms n fs; induction ss as [|s0 r IH]; intros ms n fs H Es Em;
    destruct ms as [|m0 mr]; cbn [texture_images fst] in H; try (destruct n; discriminate).
  destruct (create_texture_image b3 s0 m0 is p false fs) as [nm fs1] eqn:E.
  destruct (texture_images b3 mr r is p fs1) as [names fs2] eqn:E2.
  destruct n as [|n]; cbn [fst nth_error] in H, Es, Em.
  - injection H as <-. injection Es as ->. injection Em as ->. rewrite E. reflexivity.
  - replace names with (fst (texture_images b3 mr r is p fs1)) in H by (rewrite E2; reflexivity).
    rewrite (IH mr n fs1 H Es Em). apply create_texture_image_name.
Qed.

Lemma texture_images_final b3 ms ss is p fs n s m f :
  NoDup (map face_number ss) ->
  nth_error ss n = Some s -> nth_error ms n = Some m ->
  (forall fs0, create_texture_image b3 s m is p false fs0 =
     (tex_name (tex_prefix b3 p) (face_number s),
      save (path_join (dirname b3) (tex_name (tex_prefix b3 p) (face_number s))) f fs0)) ->
  lookup (snd (texture_images b3 ms ss is p fs))
         (path_join (dirname b3) (tex_name (tex_prefix b3 p) (face_number s))) = Some f.
Proof.
  revert ms n fs; induction ss as [|s0 r IH]; intros ms n fs ND Es Em C;
    [destruct n; discriminate|].
  destruct ms as [|m0 mr]; [destruct n; discriminate|].
  inversion ND as [|? ? Nin ND']; subst. cbn [texture_images].
  destruct n as [|n]; cbn [nth_error] in Es, Em.
  - injection Es as <-. injection Em as <-. rewrite C.
    destruct (texture_images b3 mr r is p _) as [names fs2] eqn:E2. cbn [snd].
    replace fs2 with (snd (texture_images b3 mr r is p
        (save (path_join (dirname b3) (tex_name (tex_prefix b3 p) (face_number s0))) f fs)))
      by (rewrite E2; reflexivity).
    rewrite texture_images_rest.
    + apply PipelineFacts.lookup_save.
    + intros s' Hs' E. apply path_join_inj, tex_name_inj in E.
      apply Nin. rewrite E. apply in_map, Hs'.
    + intro E. apply path_join_inj in E. exact (tex_name_not_placeholder _ _ E).
  - destruct (create_texture_image b3 s0 m0 is p false fs) as [nm fs1].
    destruct (texture_images b3 mr r is p fs1) as [names fs2] eqn:E2. cbn [snd].
    replace fs2 with (snd (texture_images b3 mr r is p fs1)) by (rewrite E2; reflexivity).
    exact (IH mr n fs1 ND' Es Em C).
Qed.

(** In the texture loop of [make_objfiles], with the faces numbered apart,
    every face that gets its own texture finds it intact in the output
    directory at the end: the file under the name returned for face [n] is
    the PNG that face [n]'s call writes, as if it had run alone on the
    initial directory.  No later face overwrites it, neither with its own
    PNG nor with the [no_texture.png] placeholder. *)
Theorem texture_images_kept b3 ms ss is p fs n name :
  NoDup (map face_number ss) ->
  nth_error (fst (texture_images b3 ms ss is p fs)) n = Some name ->
  name <> NO_TEXTURE ->
  exists s m, nth_error ss n = Some s /\ nth_error ms n = Some m /\
    lookup (snd (texture_images b3 ms ss is p fs)) (path_join (dirname b3) name) =
    lookup (snd (create_texture_image b3 s m is p false fs)) (path_join (dirname b3) name) /\
    lookup (snd (texture_images b3 ms ss is p fs)) (path_join (dirname b3) name) <> None.
Proof.
  intros ND H Hn. destruct (texture_images_nth _ _ _ _ _ _ _ _ H) as (s & m & Es & Em).
  exists s, m. split; [exact Es|]. split; [exact Em|].
  pose proof (texture_images_name _ _ _ _ _ _ _ _ _ _ H Es Em) as Hname.
  destruct (create_texture_image_cases b3 s m is p) as [C|[f C]].
  - exfalso. apply Hn. rewrite Hname. apply (C fs).
  - rewrite C in Hname |- *. cbn [fst snd] in Hname |- *. subst name.
    rewrite (texture_images_final b3 ms ss is p fs n s m f ND Es Em C).
    rewrite PipelineFacts.lookup_save. split; [reflexivity|discriminate].
Qed.

Lemma texture_images_kept_witness :
  let b3 := mkbuild3d "b" 2 "out" (1 # 100) [(1, 0, 0); (0, 1, 0)]%Q in
  let ss := [mksurface 0 (sboundary PipelineFacts.face_b) [] (projected_points PipelineFacts.face_b);
             mksurface 1 (sboundary PipelineFacts.face_b) [] (projected_points PipelineFacts.face_b)] in
  let ms := [MBool true; MBool true] in
  exists s m, nth_error ss 0 = Some s /\ nth_error ms 0 = Some m /\
    lookup (snd (texture_images b3 ms ss (Some 2%Z) (Some "p"%string) []))
           (path_join (dirname b3) "p_000.png") =
    lookup (snd (create_texture_image b3 s m (Some 2%Z) (Some "p"%string) false []))
           (path_join (dirname b3) "p_000.png") /\
    lookup (snd (texture_images b3 ms ss (Some 2%Z) (Some "p"%string) []))
           (path_join (dirname b3) "p_000.png") <> None.
Proof.
  intros b3 ss ms.
  apply (texture_images_kept b3 ms ss (Some 2%Z) (Some "p"%string) [] 0 "p_000.png").
  - cbn. constructor; [cbn; intros [H|H]; [discriminate H | exact H]|].
    constructor; [intros H; exact H | constructor].
  - vm_compute. reflexivity.
  - discriminate.
Defined.

End TexturesFacts.

Module ObjFacts.
Import Pipeline PipelineFacts.

Lemma indexed_lt {A} (eqb : A -> A -> bool) all x p :
  DedupFacts.indexed A eqb all x p -> p < length all.
Proof.
  intro H. specialize (H []). rewrite app_nil_r in H.
  destruct (DedupFacts.index_of_found A eqb x all p H) as (y & E & _).
  apply nth_error_Some. rewrite E. discriminate.
Qed.

Lemma Forall2_nth {X Y} (P : X -> Y -> Prop) l1 l2 dx dy i :
  Forall2 P l1 l2 -> i < length l1 -> P (nth i l1 dx) (nth i l2 dy).
Proof.
  intro H. revert i. induction H as [|x y r1 r2 Hxy _ IH]; intros i Hi; [simpl in Hi; lia|].
  destruct i; simpl; [exact Hxy|]. apply IH. simpl in Hi. lia.
Qed.

(** Every [f] line of the OBJ file of [make_objfiles] has one entry per
    vertex of its face's ring (closing vertex dropped), and every entry
    [v/vt/vn] refers to existing [v], [vt] and [vn] lines: [1 <= v <= #v],
    [1 <= vt <= #vt], and [vn = n + 1] for the [n]-th face, one [vn] line
    being written per surface.  This needs each surface to have as many
    projected vertices as its ring (else [vt_index[n][i]] raises). *)
Theorem obj_indices_in_range rings ss :
  Forall2 (fun r s => length (texcoords s) = length (removelast r)) rings ss ->
  let o := make_obj rings ss in
  length (obj_faces o) = length rings /\
  forall n line, nth_error (obj_faces o) n = Some line ->
    length line = length (removelast (nth n rings [])) /\
    Forall (fun e => let '(v, vt, vn) := e in
              1 <= v <= length (obj_vertices o) /\
              1 <= vt <= length (obj_texcoords o) /\
              vn = S n /\ vn <= length ss) line.
Proof.
  intros HL o.
  destruct (dedup_faces qeq3 [] (map (@removelast _) rings)) as [all fv] eqn:E1.
  destruct (dedup_faces qeq2 [] (map texcoords ss)) as [vt vti] eqn:E2.
  pose proof (DedupFacts.dedup_faces_spec _ qeq3 qeq3_refl (map (@removelast _) rings) [])
    as S1. rewrite E1 in S1. destruct S1 as [_ F1].
  pose proof (DedupFacts.dedup_faces_spec _ qeq2 qeq2_refl (map texcoords ss) []) as S2.
  rewrite E2 in S2. destruct S2 as [_ F2].
  pose proof (Forall2_length HL) as Lrs.
  pose proof (Forall2_length F1) as L1. pose proof (Forall2_length F2) as L2.
  rewrite length_map in L1, L2.
  subst o. rewrite (make_obj_faces rings ss all fv vt vti E1 E2). cbn [obj_faces obj_vertices obj_texcoords].
  split; [rewrite length_map, length_seq; congruence|].
  intros n line Hn.
  rewrite nth_error_map, nth_error_seq in Hn.
  destruct (Nat.ltb_spec n (length fv)) as [Hlt|]; [|discriminate]. cbn in Hn.
  injection Hn as <-.
  assert (G1 := Forall2_nth _ _ _ [] [] n F1 ltac:(rewrite length_map; lia)).
  assert (G2 := Forall2_nth _ _ _ [] [] n F2 ltac:(rewrite length_map; lia)).
  assert (G3 := Forall2_nth _ _ _ [] (empty_surface 0) n HL ltac:(lia)).
  replace (nth n (map (@removelast _) rings) []) with (removelast (nth n rings []))
    in G1 by (symmetry; exact (map_nth (@removelast _) rings [] n)).
  rewrite (nth_indep (map texcoords ss) [] (texcoords (empty_surface 0))) in G2
    by (rewrite length_map; lia).
  rewrite (map_nth texcoords ss (empty_surface 0) n) in G2.
  cbv beta in G3. pose proof (Forall2_length G1) as Lv. pose proof (Forall2_length G2) as Lt.
  unfold face_line. split; [rewrite length_map, length_seq; congruence|].
  apply Forall_forall. intros e He. apply in_map_iff in He.
  destruct He as (i & <- & Hi). apply in_seq in Hi.
  split; [|split; [|split]].
  - assert (Iv := Forall2_nth _ _ _ (0, 0, 0)%Q 0 i G1 ltac:(lia)).
    apply indexed_lt in Iv. lia.
  - assert (It := Forall2_nth _ _ _ (0, 0)%Q 0 i G2 ltac:(lia)).
    apply indexed_lt in It. lia.
  - reflexivity.
  - lia.
Qed.

Local Open Scope Q_scope.

Lemma length_linspace lo hi num : length (linspace lo hi num) = num.
Proof.
  destruct num as [|[|m]]; try reflexivity.
  unfold linspace. rewrite length_map, length_seq. reflexivity.
Qed.

Lemma grid_count_bound (d g k : Q) :
  0 <= d -> 0 < g -> 0 < k -> d / k <= g ->
  (0 <= py_int (d / g) <= Qfloor k)%Z.
Proof.
  intros Hd Hg Hk H.
  assert (D : d <= g * k).
  { assert (Nk : ~ k == 0) by (intro E; rewrite E in Hk; exact (Qlt_irrefl 0 Hk)).
    rewrite <- (Qmult_div_r d k Nk) at 1. rewrite (Qmult_comm k (d / k)).
    apply Qmult_le_compat_r; [exact H | apply Qlt_le_weak, Hk]. }
  assert (Q1 : 0 <= d / g) by (apply Qle_shift_div_l; [exact Hg | rewrite Qmult_0_l; exact Hd]).
  assert (Q2 : d / g <= k).
  { apply Qle_shift_div_r; [exact Hg|]. rewrite Qmult_comm. exact D. }
  unfold py_int. replace (qle 0 (d / g)) with true by (symmetry; apply qle_spec, Q1).
  split.
  - change 0%Z with (Qfloor 0). apply Qfloor_resp_le, Q1.
  - apply Qfloor_resp_le, Q2.
Qed.

(** The PNG written by [create_texture_image] for a face with points in
    its boundary is at most [imagesize] pixels wide and high, and at least
    one: the grid size is at least the boundary's width and height divided
    by [imagesize - 1].  ([imagesize] is [DEFAULT_IMAGESIZE] when omitted;
    with [imagesize = 1] the division raises.) *)
Theorem texture_png_size b3 s m imagesize prefix wp fs :
  let isz := match imagesize with Some i => i | None => DEFAULT_IMAGESIZE end in
  let bnd := sboundary s in
  (2 <= isz)%Z -> minx bnd <= maxx bnd -> miny bnd <= maxy bnd -> 0 < gridsize b3 ->
  existsb (fun x => x) (mask_and m (map (in_bounds bnd) (projected_points s))) = true ->
  let '(name, fs') := create_texture_image b3 s m imagesize prefix wp fs in
  exists rows, lookup fs' (path_join (dirname b3) name) = Some (PNG rows) /\
    (1 <= length rows <= Z.to_nat isz)%nat /\
    Forall (fun row => 1 <= length row <= Z.to_nat isz)%nat rows.
Proof.
  intros isz bnd Hi Hx Hy Hg Hm.
  unfold create_texture_image. fold isz. fold bnd. cbv zeta. rewrite Hm. cbv iota beta.
  eexists. split; [apply lookup_save|].
  set (g := texture_gridsize b3 bnd isz).
  assert (Hk : 0 < inject_Z isz - 1).
  { apply (proj1 (Qlt_minus_iff 1 (inject_Z isz))).
    change 1 with (inject_Z 1). rewrite <- Zlt_Qlt. lia. }
  assert (Fk : Qfloor (inject_Z isz - 1) = (isz - 1)%Z).
  { change (inject_Z isz - 1) with (inject_Z isz + inject_Z (-1)).
    rewrite <- inject_Z_plus. apply Qfloor_Z. }
  destruct (py_max3_spec ((maxx bnd - minx bnd) / (inject_Z isz - 1))
                          ((maxy bnd - miny bnd) / (inject_Z isz - 1)) (gridsize b3)) as [G1 G2].
  fold g in G1, G2. unfold texture_gridsize in g. fold g in G1, G2.
  assert (Gp : 0 < g) by (eapply Qlt_le_trans; [exact Hg | exact G2]).
  assert (Ga : (maxx bnd - minx bnd) / (inject_Z isz - 1) <= g).
  { rewrite G1. eapply Qle_trans; [apply Q.le_max_l | apply Q.le_max_l]. }
  assert (Gb : (maxy bnd - miny bnd) / (inject_Z isz - 1) <= g).
  { rewrite G1. eapply Qle_trans; [apply Q.le_max_r | apply Q.le_max_l]. }
  assert (Dx : 0 <= maxx bnd - minx bnd) by (apply (proj1 (Qle_minus_iff _ _)); exact Hx).
  assert (Dy : 0 <= maxy bnd - miny bnd) by (apply (proj1 (Qle_minus_iff _ _)); exact Hy).
  pose proof (grid_count_bound _ _ _ Dx Gp Hk Ga) as Bx.
  pose proof (grid_count_bound _ _ _ Dy Gp Hk Gb) as By.
  rewrite Fk in Bx, By.
  unfold rgb_raster. rewrite length_map, length_linspace. split; [lia|].
  apply Forall_forall. intros row Hr. apply in_map_iff in Hr. destruct Hr as (y & <- & _).
  rewrite length_map, length_linspace. lia.
Qed.

Local Open Scope nat_scope.

Lemma obj_indices_in_range_witness :
  let o := make_obj cube_rings [unit_square_surface 0; unit_square_surface 1] in
  length (obj_faces o) = length cube_rings /\
  forall n line, nth_error (obj_faces o) n = Some line ->
    length line = length (removelast (nth n cube_rings [])) /\
    Forall (fun e => let '(v, vt, vn) := e in
              1 <= v <= length (obj_vertices o) /\
              1 <= vt <= length (obj_texcoords o) /\
              vn = S n /\ vn <= length [unit_square_surface 0; unit_square_surface 1]) line.
Proof.
  apply (obj_indices_in_range cube_rings [unit_square_surface 0; unit_square_surface 1]).
  repeat constructor.
Defined.

Local Open Scope Q_scope.

Lemma texture_png_size_witness :
  let b3 := mkbuild3d "b" 2 "out" (1 # 100) [(1, 0, 0); (0, 1, 0)]%Q in
  let '(name, fs') := create_texture_image b3 face_b (MBool true) (Some 2%Z) None false [] in
  exists rows, lookup fs' (path_join (dirname b3) name) = Some (PNG rows) /\
    (1 <= length rows <= Z.to_nat 2)%nat /\
    Forall (fun row => 1 <= length row <= Z.to_nat 2)%nat rows.
Proof.
  intro b3.
  apply (texture_png_size b3 face_b (MBool true) (Some 2%Z) None false []);
    vm_compute; first [reflexivity | discriminate].
Defined.

End ObjFacts.

Module NearWallsFacts.
Import Pipeline PipelineFacts NearWalls.
Local Open Scope Q_scope.

(** The distance of point [j] to face [n] as [count_points_near_walls] sees
    it: [|z|], plus [999.9] outside the face's boundary, plus [999.9] on the
    top and bottom faces of an LOD1 building. *)
Definition near_dist (lod : Z) (nsurf n : nat) (s : surface) (j : nat) : Q :=
  let d := nth j (get_distance_matrix true s) 0 in
  if Z.eqb lod 1 && (Nat.eqb n 0 || Nat.eqb n (nsurf - 1)) then d + PENALTY else d.

Definition pen_row (lod : Z) (nsurf n : nat) (s : surface) : list Q :=
  if Z.eqb lod 1 && (Nat.eqb n 0 || Nat.eqb n (nsurf - 1))
  then map (fun d => d + PENALTY) (get_distance_matrix true s)
  else get_distance_matrix true s.

Lemma vmin_le l x : In x l -> vmin l <= x.
Proof.
  induction l as [|y [|z r] IH]; intro H; [destruct H| |].
  - destruct H as [<-|[]]. apply Qle_refl.
  - change (vmin (y :: z :: r)) with (let m := vmin (z :: r) in if qlt m y then m else y).
    cbv zeta. destruct (qlt (vmin (z :: r)) y) eqn:E.
    + apply qlt_spec in E. destruct H as [<-|H]; [apply Qlt_le_weak, E | apply IH, H].
    + apply qlt_false in E. destruct H as [<-|H]; [apply Qle_refl|].
      eapply Qle_trans; [exact E | apply IH, H].
Qed.

Lemma vmin_le_iff l t : l <> [] -> (vmin l <= t <-> exists x, In x l /\ x <= t).
Proof.
  intro H. split.
  - intro Hm. exists (vmin l). split; [apply vmin_in, H | exact Hm].
  - intros (x & Hx & Hxt). eapply Qle_trans; [apply vmin_le, Hx | exact Hxt].
Qed.

Lemma length_pen_row lod nsurf n s :
  length (pen_row lod nsurf n s) = length (projected_points s).
Proof.
  unfold pen_row, get_distance_matrix.
  destruct (_ && _); rewrite ?length_map; reflexivity.
Qed.

Lemma filter_false {X} (f : X -> bool) l :
  (forall x, In x l -> f x = false) -> filter f l = [].
Proof.
  induction l as [|x r IH]; intro H; [reflexivity|]. cbn [filter].
  rewrite (H x (or_introl eq_refl)). apply IH. intros y Hy. apply H. right. exact Hy.
Qed.

Definition keep (t : Q) (r : list Q) : bool := negb (qlt t (vmin r)).

Lemma near_wall_rows_eq lod nsurf t N ss : forall n0,
  (0 < N)%nat -> Forall (fun s => length (projected_points s) = N) ss ->
  near_wall_rows lod nsurf n0 ss t =
  Some (filter (keep t) (map (fun '(i, s) => pen_row lod nsurf i s)
                             (combine (seq n0 (length ss)) ss))).
Proof.
  induction ss as [|s r IH]; intros n0 HN HF; [reflexivity|].
  apply Forall_cons_iff in HF as [Hs Hr].
  cbn [near_wall_rows length seq combine map filter].
  fold (pen_row lod nsurf n0 s).
  destruct (pen_row lod nsurf n0 s) as [|d ds] eqn:E.
  - exfalso. pose proof (length_pen_row lod nsurf n0 s) as L. rewrite E, Hs in L.
    cbn in L. lia.
  - rewrite <- E. unfold keep at 1. rewrite (IH (S n0) HN Hr).
    destruct (qlt t (vmin (pen_row lod nsurf n0 s))); reflexivity.
Qed.

(** [count_points_near_walls] counts the points that lie within
    [threshold] of at least one face (with the boundary and LOD1
    penalties): dropping the faces whose nearest point is farther than
    [threshold] loses no such point.  An empty cloud gives [0]. *)
Theorem count_points_near_walls_spec lod ss N t :
  Forall (fun s => length (projected_points s) = N) ss ->
  count_points_near_walls lod N ss t =
  Some (length (filter
    (fun j => existsb (fun '(n, s) => qle (near_dist lod (length ss) n s j) t)
                      (combine (seq 0 (length ss)) ss))
    (seq 0 N))).
Proof.
  intro HF. unfold count_points_near_walls.
  destruct (Nat.eqb_spec N 0) as [->|HN]; [reflexivity|].
  rewrite (near_wall_rows_eq lod (length ss) t N ss 0 ltac:(lia) HF).
  set (C := combine (seq 0 (length ss)) ss).
  set (Ps := map (fun '(i, s) => pen_row lod (length ss) i s) C).
  assert (LP : forall r, In r Ps -> length r = N).
  { intros r Hr. unfold Ps in Hr. apply in_map_iff in Hr. destruct Hr as ([i s] & <- & Hi).
    rewrite length_pen_row. apply in_combine_r in Hi.
    rewrite Forall_forall in HF. apply HF, Hi. }
  (* The per-point test, read on the rows that are kept. *)
  assert (KEY : forall j, (j < N)%nat ->
    existsb (fun '(n, s) => qle (near_dist lod (length ss) n s j) t) C = true <->
    exists r, In r (filter (keep t) Ps) /\ nth j r 0 <= t).
  { intros j Hj. rewrite existsb_exists. split.
    - intros ([n s] & Hin & Hq). apply qle_spec in Hq.
      exists (pen_row lod (length ss) n s).
      assert (Hr : In (pen_row lod (length ss) n s) Ps)
        by (unfold Ps; apply in_map_iff; exists (n, s); auto).
      assert (Ej : nth j (pen_row lod (length ss) n s) 0 = near_dist lod (length ss) n s j).
      { unfold pen_row, near_dist. destruct (_ && _); [|reflexivity].
        assert (Lg : (j < length (get_distance_matrix true s))%nat).
        { unfold get_distance_matrix. rewrite length_map. apply in_combine_r in Hin.
          rewrite Forall_forall in HF. rewrite (HF _ Hin). exact Hj. }
        rewrite (nth_indep _ 0 (0 + PENALTY)) by (rewrite length_map; exact Lg).
        apply (map_nth (fun d => d + PENALTY)). }
      split; [|rewrite Ej; exact Hq].
      apply filter_In. split; [exact Hr|]. unfold keep.
      apply negb_true_iff. apply not_true_iff_false. intro Hl. apply qlt_spec in Hl.
      apply (Qlt_not_le _ _ Hl).
      apply (Qle_trans _ (nth j (pen_row lod (length ss) n s) 0)); [|rewrite Ej; exact Hq].
      apply vmin_le, nth_In. rewrite (LP _ Hr). exact Hj.
    - intros (r & Hr & Hq). apply filter_In in Hr. destruct Hr as [Hr _].
      unfold Ps in Hr. apply in_map_iff in Hr. destruct Hr as ([n s] & <- & Hin).
      exists (n, s). split; [exact Hin|]. apply qle_spec.
      unfold pen_row in Hq. unfold near_dist. destruct (_ && _); [|exact Hq].
      assert (Lg : (j < length (get_distance_matrix true s))%nat).
      { unfold get_distance_matrix. rewrite length_map. apply in_combine_r in Hin.
        rewrite Forall_forall in HF. rewrite (HF _ Hin). exact Hj. }
      rewrite (nth_indep _ 0 (0 + PENALTY)) in Hq by (rewrite length_map; exact Lg).
      rewrite (map_nth (fun d => d + PENALTY)) in Hq. exact Hq. }
  destruct (filter (keep t) Ps) as [|r0 rs] eqn:EF.
  - f_equal. symmetry. apply length_zero_iff_nil. apply filter_false.
    intros j Hj. apply in_seq in Hj. apply not_true_iff_false. intro H.
    apply (KEY j ltac:(lia)) in H. destruct H as (r & [] & _).
  - assert (L0 : length r0 = N).
    { apply LP. apply (proj1 (filter_In (keep t) r0 Ps)). rewrite EF. left. reflexivity. }
    rewrite L0. f_equal. f_equal. apply filter_ext_in. intros j Hj. apply in_seq in Hj.
    apply Bool.eq_iff_eq_true. rewrite qle_spec, (KEY j ltac:(lia)).
    rewrite vmin_le_iff by (unfold column; discriminate).
    unfold column. split.
    + intros (x & Hx & Hxt). apply in_map_iff in Hx. destruct Hx as (r & <- & Hr).
      exists r. split; [exact Hr | exact Hxt].
    + intros (r & Hr & Hrt). exists (nth j r 0). split; [|exact Hrt].
      apply in_map_iff. exists r. split; [reflexivity | exact Hr].
Qed.

Lemma count_points_near_walls_spec_witness :
  count_points_near_walls 2 2 [face_a; face_b] (1 # 10)%Q =
  Some (length (filter
    (fun j => existsb (fun '(n, s) => qle (near_dist 2 2 n s j) (1 # 10)%Q)
                      (combine (seq 0 2) [face_a; face_b]))
    (seq 0 2))).
Proof.
  apply (count_points_near_walls_spec 2 [face_a; face_b] 2 (1 # 10)%Q).
  repeat constructor.
Defined.

End NearWallsFacts.

Module PointCloudFacts.
Import Pipeline PipelineFacts PointCloud.
Local Open Scope Q_scope.

(** Stacking rows on [point_stack], [None] standing for the empty stack. *)
Definition stack (ps : option (list lasrow)) (rows : list lasrow) : option (list lasrow) :=
  match rows with
  | [] => ps
  | _ :: _ => match ps with None => Some rows | Some st => Some (st ++ rows) end
  end.

Lemma stack_app ps a b : stack (stack ps a) b = stack ps (a ++ b).
Proof.
  destruct a as [|x a]; [reflexivity|]. destruct b as [|y b]; cbn [stack app].
  - rewrite app_nil_r. reflexivity.
  - destruct ps; cbn; [rewrite <- app_assoc|]; reflexivity.
Qed.

Lemma existsb_map_id {X} (f : X -> bool) l : existsb (fun x => x) (map f l) = existsb f l.
Proof. induction l as [|x r IH]; cbn; [reflexivity|]. rewrite IH. reflexivity. Qed.

Lemma existsb_filter_nil {X} (f : X -> bool) l : existsb f l = false -> filter f l = [].
Proof.
  induction l as [|x r IH]; cbn; [reflexivity|].
  destruct (f x); cbn; [discriminate|exact IH].
Qed.

Lemma read_chunk_spec b rgb ps chunk :
  read_chunk b rgb ps chunk =
  if negb rgb && existsb (in_area b) chunk then None
  else Some (stack ps (map to_row (filter (in_area b) chunk))).
Proof.
  unfold read_chunk. rewrite existsb_map_id.
  destruct (existsb (in_area b) chunk) eqn:E; cbn [negb].
  - destruct rgb; cbn [negb andb]; [|reflexivity].
    destruct (filter (in_area b) chunk) as [|x r] eqn:F.
    + exfalso. apply existsb_exists in E as [p [Hp Hf]].
      assert (In p (filter (in_area b) chunk)) by (apply filter_In; auto).
      rewrite F in H. exact H.
    + destruct ps; reflexivity.
  - rewrite andb_false_r, existsb_filter_nil by exact E. reflexivity.
Qed.

Lemma read_chunks_spec b rgb cs ps :
  read_chunks b rgb cs ps =
  if negb rgb && existsb (in_area b) (concat cs) then None
  else Some (stack ps (map to_row (filter (in_area b) (concat cs)))).
Proof.
  revert ps; induction cs as [|c r IH]; intro ps; cbn [read_chunks concat].
  - rewrite andb_false_r. reflexivity.
  - rewrite read_chunk_spec, existsb_app.
    destruct rgb; cbn [negb andb].
    + rewrite IH. cbn [negb andb]. rewrite stack_app, filter_app, map_app. reflexivity.
    + destruct (existsb (in_area b) c) eqn:E; cbn [orb]; [reflexivity|].
      rewrite IH. cbn [negb andb]. rewrite filter_app, (existsb_filter_nil _ _ E).
      reflexivity.
Qed.

(** The records of the listed files that exist, in order. *)
Definition las_records (lasfiles : list string) (d : lasdir) : list lasrec :=
  concat (map (fun name => match las_open d name with
                           | Some f => concat (chunks f)
                           | None => []
                           end) lasfiles).

(** Some listed file that exists has no RGB and a point in the area. *)
Definition rgb_missing (b : boundary) (lasfiles : list string) (d : lasdir) : bool :=
  existsb (fun name => match las_open d name with
                       | Some f => negb (has_rgb f) && existsb (in_area b) (concat (chunks f))
                       | None => false
                       end) lasfiles.

Lemma read_files_spec b lasfiles d ps :
  read_files b lasfiles d ps =
  if rgb_missing b lasfiles d then None
  else Some (stack ps (map to_row (filter (in_area b) (las_records lasfiles d)))).
Proof.
  unfold rgb_missing, las_records.
  revert ps; induction lasfiles as [|f r IH]; intro ps; [reflexivity|].
  cbn [read_files existsb map concat].
  destruct (las_open d f) as [lf|]; cbn [orb app].
  - rewrite read_chunks_spec.
    destruct (negb (has_rgb lf) && existsb (in_area b) (concat (chunks lf))); cbn [orb];
      [reflexivity|].
    rewrite IH, filter_app, map_app, stack_app. reflexivity.
  - apply IH.
Qed.

Lemma color_test r g b :
  qlt 0 (inject_Z r / 65536 + inject_Z g / 65536 + inject_Z b / 65536) = (0 <? r + g + b)%Z.
Proof.
  unfold qlt, Qle_bool. cbv [Qplus Qdiv Qmult Qinv inject_Z Qnum Qden].
  destruct (Z.ltb_spec 0 (r + g + b)); cbn [Qnum Qden];
    [apply negb_true_iff | apply negb_false_iff];
    [apply Z.leb_gt | apply Z.leb_le]; nia.
Qed.

(** [crop_las] raises ([None]) exactly when a listed file that exists has
    a point format without RGB and a point in the area.  Otherwise it
    returns the points of the listed files that exist (missing files are
    skipped), restricted to the area, in file and chunk order, whatever
    the chunking; their colors are all RGB ([/ 65536]) if the first point
    kept has a non-zero color, and all the intensity (on the three
    channels) otherwise; no point gives an empty cloud. *)
Theorem crop_las_spec b lasfiles d :
  crop_las b lasfiles d =
  if rgb_missing b lasfiles d then None else
  Some match filter (in_area b) (las_records lasfiles d) with
  | [] => []
  | (p0 :: _) as sel =>
      map (fun p => (mkpt (lx p) (ly p) (lz p),
                     if (0 <? lred p0 + lgreen p0 + lblue p0)%Z
                     then (inject_Z (lred p) / 65536, inject_Z (lgreen p) / 65536,
                           inject_Z (lblue p) / 65536)
                     else (inject_Z (lintensity p), inject_Z (lintensity p),
                           inject_Z (lintensity p)))) sel
  end.
Proof.
  unfold crop_las, read_lasfiles. rewrite read_files_spec.
  destruct (rgb_missing b lasfiles d); [reflexivity|].
  destruct (filter (in_area b) (las_records lasfiles d)) as [|p0 r] eqn:E; [reflexivity|].
  change (stack None (map to_row (p0 :: r))) with (Some (map to_row (p0 :: r))).
  cbv beta iota zeta.
  change (hd (mklasrow 0 0 0 0 0 0 0) (map to_row (p0 :: r))) with (to_row p0).
  replace (qlt 0 (rr (to_row p0) + rg (to_row p0) + rb (to_row p0)))
    with (0 <? lred p0 + lgreen p0 + lblue p0)%Z by (symmetry; apply color_test).
  f_equal. generalize (p0 :: r) as l. intro l.
  destruct (0 <? lred p0 + lgreen p0 + lblue p0)%Z;
    (induction l as [|p l IH]; [reflexivity|]; cbn [map combine]; rewrite IH; reflexivity).
Qed.


Fixpoint grid_at (k : nat) : Q :=
  match k with O => GRIDSIZE | S k => grid_at k * GRID_FACTOR end.

Lemma grid_at_ge k : GRIDSIZE <= grid_at k.
Proof.
  induction k as [|k IH]; [apply Qle_refl|]. cbn [grid_at].
  apply (Qle_trans _ (grid_at k)); [exact IH|].
  rewrite <- (Qmult_1_r (grid_at k)) at 1. apply Qmult_le_l; [|unfold GRID_FACTOR, Qle; simpl; lia].
  eapply Qlt_le_trans; [|exact IH]. reflexivity.
Qed.

Lemma grid_at_pow k : grid_at k == GRIDSIZE * GRID_FACTOR ^ Z.of_nat k.
Proof.
  induction k as [|k IH]; [cbn; ring|]. cbn [grid_at]. rewrite IH.
  rewrite Nat2Z.inj_succ, <- Z.add_1_r, Qpower_plus by (unfold GRID_FACTOR; discriminate).
  simpl Qpower. ring.
Qed.

Lemma downsample_loop_inv fuel pcd down limit k sg res g' :
  ((down = pcd /\ sg = GRIDSIZE /\ k = O) \/
   (exists k', k = S k' /\ sg = grid_at k' /\ down = voxel_down_sample sg pcd)) ->
  downsample_loop fuel pcd down limit (grid_at k) sg = Some (res, g') ->
  ((res = pcd /\ g' = GRIDSIZE) \/
   (exists k', g' = grid_at k' /\ res = voxel_down_sample g' pcd)) /\
  ((limit <= 0)%Z -> res = down) /\
  ((0 < limit)%Z -> (Z.of_nat (length res) <= limit)%Z).
Proof.
  revert down k sg. induction fuel as [|f IH]; intros down k sg Hi H; [discriminate|].
  cbn [downsample_loop] in H.
  destruct ((0 <? limit)%Z && (limit <? Z.of_nat (length down))%Z) eqn:C.
  - apply andb_true_iff in C. destruct C as [C1 C2]. apply Z.ltb_lt in C1.
    change (grid_at k * GRID_FACTOR) with (grid_at (S k)) in H.
    destruct (IH _ (S k) (grid_at k) (or_intror (ex_intro _ k (conj eq_refl (conj eq_refl eq_refl)))) H)
      as (A & _ & B).
    split; [exact A|]. split; [intro; lia | exact B].
  - injection H as <- <-. split; [|split; [reflexivity|]].
    + destruct Hi as [(-> & -> & _)|(k' & _ & -> & ->)]; [left; auto | right; eauto].
    + intro Hl. apply andb_false_iff in C. destruct C as [C|C]; [apply Z.ltb_ge in C; lia|].
      apply Z.ltb_ge in C. exact C.
Qed.

(** The downsampling loop of [get_pointcloud], when it exits: the cloud
    kept is the cropped cloud itself with [self.gridsize = 0.01], or the
    voxel downsampling of the cropped cloud (never of an earlier
    downsample) at exactly the [self.gridsize] recorded, which is
    [0.01 * 1.41421356^k] for some [k], so at least [0.01]; it has at most
    [limit_points] points, and it is the cropped cloud untouched when
    [limit_points <= 0]. *)
Theorem get_pointcloud_downsampling fuel pcd limit res g :
  get_pointcloud_tail fuel pcd limit = Some (res, g) ->
  ((res = pcd /\ g = GRIDSIZE) \/ res = voxel_down_sample g pcd) /\
  (exists k, g == GRIDSIZE * GRID_FACTOR ^ Z.of_nat k) /\ GRIDSIZE <= g /\
  ((limit <= 0)%Z -> res = pcd) /\
  ((0 < limit)%Z -> (Z.of_nat (length res) <= limit)%Z).
Proof.
  unfold get_pointcloud_tail. intro H.
  change GRIDSIZE with (grid_at 0) in H at 1.
  destruct (downsample_loop_inv fuel pcd pcd limit 0 GRIDSIZE res g
              (or_introl (conj eq_refl (conj eq_refl eq_refl))) H) as (A & B & C).
  destruct A as [(-> & ->)|(k & -> & ->)].
  - split; [left; auto|]. split; [exists O; rewrite <- (grid_at_pow 0); reflexivity|].
    split; [apply Qle_refl|]. split; [exact B | exact C].
  - split; [right; reflexivity|]. split; [exists k; apply grid_at_pow|].
    split; [apply grid_at_ge|]. split; [exact B | exact C].
Qed.

Definition pcd_w : list (pt3 * rgb) :=
  [(mkpt 0 0 0, (0, 0, 0)); (mkpt (1 # 1000) 0 0, (0, 0, 0)); (mkpt 1 0 0, (0, 0, 0))]%Q.

Lemma get_pointcloud_downsampling_witness :
  match get_pointcloud_tail 10 pcd_w 2 with
  | Some (res, g) =>
      ((res = pcd_w /\ g = GRIDSIZE) \/ res = voxel_down_sample g pcd_w) /\
      (exists k, g == GRIDSIZE * GRID_FACTOR ^ Z.of_nat k)%Q /\ (GRIDSIZE <= g)%Q /\
      ((2 <= 0)%Z -> res = pcd_w) /\
      ((0 < 2)%Z -> (Z.of_nat (length res) <= 2)%Z)
  | None => False
  end.
Proof.
  destruct (get_pointcloud_tail 10 pcd_w 2) as [[res g]|] eqn:E;
    [exact (get_pointcloud_downsampling 10 pcd_w 2 res g E) | vm_compute in E; discriminate E].
Defined.

End PointCloudFacts.

Module AreaFacts.
Import Pipeline Zukaku ZukakuFacts Area.
Local Open Scope Z_scope.

Lemma get_code_range x y sc level c :
  get_code x y sc level = Some c -> (Qabs x < 160000)%Q /\ (Qabs y < 300000)%Q.
Proof.
  unfold get_code. intro H.
  destruct (qle 160000 (Qabs x)) eqn:E1; [discriminate|].
  destruct (qle 300000 (Qabs y)) eqn:E2; [discriminate|].
  split; apply Qnot_le_lt; intro C; apply Qle_bool_iff in C; unfold qle in *; congruence.
Qed.

(** [get_code] depends on the point only through its sheet: the
    truncated coordinates divided by the sheet's width and height. *)
Lemma get_code_tile x y x' y' sc level (w h : Z) :
  In (level, w, h) [(50000, 40000, 30000); (5000, 4000, 3000); (2500, 2000, 1500);
                    (1000, 800, 600); (500, 400, 300); (250, 200, 150); (50, 40, 30)] ->
  (Qabs x < 160000)%Q -> (Qabs y < 300000)%Q ->
  (Qabs x' < 160000)%Q -> (Qabs y' < 300000)%Q ->
  py_int x / w = py_int x' / w -> py_int (- y) / h = py_int (- y') / h ->
  get_code x y sc level = get_code x' y' sc level.
Proof.
  intros HL Hx Hy Hx' Hy' Ex Ey. unfold get_code.
  rewrite (qle_false_lt _ _ Hx), (qle_false_lt _ _ Hy),
          (qle_false_lt _ _ Hx'), (qle_false_lt _ _ Hy'). simpl orb. cbv iota.
  set (X := py_int x) in *. set (Y := py_int (- y)) in *.
  set (X' := py_int x') in *. set (Y' := py_int (- y')) in *.
  clearbody X Y X' Y'. cbv zeta.
  destruct HL as [E|[E|[E|[E|[E|[E|[E|[]]]]]]]]; injection E as <- <- <-; zbool;
    repeat match goal with |- context [if Z.ltb ?a ?b then _ else _] => destruct (Z.ltb_spec a b) end;
    repeat match goal with
           | |- Some _ = Some _ => f_equal
           | |- (_ ++ _)%list = (_ ++ _)%list => f_equal
           | |- (_ :: _) = (_ :: _) => f_equal
           end; zlia.
Qed.
Lemma py_int_compat a b : (a == b)%Q -> py_int a = py_int b.
Proof.
  intro E. unfold py_int, qle.
  assert (B : Qle_bool 0 a = Qle_bool 0 b).
  { apply Bool.eq_iff_eq_true. rewrite !Qle_bool_iff. rewrite E. tauto. }
  rewrite B. destruct (Qle_bool 0 b).
  - apply Qfloor_comp, E.
  - f_equal. apply Qfloor_comp. rewrite E. reflexivity.
Qed.

(** [int()] truncates: bounds on each side of zero. *)
Lemma py_int_bounds q :
  ((0 <= q)%Q -> (inject_Z (py_int q) <= q < inject_Z (py_int q + 1))%Q) /\
  ((q < 0)%Q -> (inject_Z (py_int q - 1) < q <= inject_Z (py_int q))%Q).
Proof.
  unfold py_int, qle. split; intro H.
  - replace (Qle_bool 0 q) with true by (symmetry; apply Qle_bool_iff, H).
    split; [apply Qfloor_le | apply Qlt_floor].
  - replace (Qle_bool 0 q) with false
      by (symmetry; apply not_true_iff_false; rewrite Qle_bool_iff; intro C;
          exact (Qlt_not_le _ _ H C)).
    pose proof (Qfloor_le (- q)) as F1. pose proof (Qlt_floor (- q)) as F2.
    rewrite !inject_Z_plus in F2. unfold Z.sub. rewrite inject_Z_plus, !inject_Z_opp.
    split.
    + apply Qopp_lt_compat in F2. rewrite Qopp_opp in F2.
      eapply Qle_lt_trans; [|exact F2]. apply Qle_lteq. right. ring.
    + apply Qopp_le_compat in F1. rewrite Qopp_opp in F1. exact F1.
Qed.

Lemma py_int_nonneg q : (0 <= q)%Q -> 0 <= py_int q.
Proof.
  intro H. destruct (proj1 (py_int_bounds q) H) as [_ B].
  assert (C : (inject_Z 0 < inject_Z (py_int q + 1))%Q) by (eapply Qle_lt_trans; [exact H | exact B]).
  rewrite <- Zlt_Qlt in C. lia.
Qed.

Lemma py_int_nonpos q : (q < 0)%Q -> py_int q <= 0.
Proof.
  intro H. destruct (proj2 (py_int_bounds q) H) as [A _].
  assert (C : (inject_Z (py_int q - 1) < inject_Z 0)%Q) by (eapply Qlt_trans; [exact A | exact H]).
  rewrite <- Zlt_Qlt in C. lia.
Qed.

Lemma py_int_mono a b : (a <= b)%Q -> py_int a <= py_int b.
Proof.
  intro H. destruct (Qlt_le_dec a 0) as [Ha|Ha], (Qlt_le_dec b 0) as [Hb|Hb].
  - destruct (proj2 (py_int_bounds a) Ha) as [A _]. destruct (proj2 (py_int_bounds b) Hb) as [_ B].
    assert (C : (inject_Z (py_int a - 1) < inject_Z (py_int b))%Q).
    { eapply Qlt_le_trans; [exact A|]. eapply Qle_trans; [exact H | exact B]. }
    rewrite <- Zlt_Qlt in C. lia.
  - pose proof (py_int_nonpos a Ha). pose proof (py_int_nonneg b Hb). lia.
  - exfalso. apply (Qlt_not_le _ _ Hb). eapply Qle_trans; [exact Ha | exact H].
  - destruct (proj1 (py_int_bounds a) Ha) as [A _]. destruct (proj1 (py_int_bounds b) Hb) as [_ B].
    assert (C : (inject_Z (py_int a) < inject_Z (py_int b + 1))%Q).
    { eapply Qle_lt_trans; [exact A|]. eapply Qle_lt_trans; [exact H | exact B]. }
    rewrite <- Zlt_Qlt in C. lia.
Qed.

(** One step of [h] moves the truncation by at most [h]. *)
Lemma py_int_step q (h : Z) : 0 <= h -> py_int (q + inject_Z h) <= py_int q + h.
Proof.
  intro Hh.
  assert (Hq : forall v, (inject_Z (py_int v - 1) < v < inject_Z (py_int v + 1))%Q).
  { intro v. destruct (Qlt_le_dec v 0) as [Hv|Hv].
    - destruct (proj2 (py_int_bounds v) Hv) as [A B]. split; [exact A|].
      eapply Qle_lt_trans; [exact B|]. rewrite <- Zlt_Qlt. lia.
    - destruct (proj1 (py_int_bounds v) Hv) as [A B]. split; [|exact B].
      eapply Qlt_le_trans; [|exact A]. rewrite <- Zlt_Qlt. lia. }
  destruct (Qlt_le_dec (q + inject_Z h) 0) as [H1|H1].
  - (* both negative *)
    assert (Hq0 : (q < 0)%Q).
    { apply (Qle_lt_trans _ (q + inject_Z h)); [|exact H1].
      rewrite <- (Qplus_0_r q) at 1. apply Qplus_le_r. change 0%Q with (inject_Z 0).
      rewrite <- Zle_Qle. exact Hh. }
    destruct (proj2 (py_int_bounds _) H1) as [A _]. destruct (proj2 (py_int_bounds q) Hq0) as [_ B].
    assert (C : (inject_Z (py_int (q + inject_Z h) - 1) < inject_Z (py_int q + h))%Q).
    { eapply Qlt_le_trans; [exact A|]. rewrite inject_Z_plus. apply Qplus_le_l. exact B. }
    rewrite <- Zlt_Qlt in C. lia.
  - destruct (proj1 (py_int_bounds _) H1) as [A _]. destruct (Hq q) as [B _].
    assert (C : (inject_Z (py_int (q + inject_Z h)) < inject_Z (py_int q + h + 1))%Q).
    { eapply Qle_lt_trans; [exact A|].
      assert (E : (inject_Z (py_int q + h + 1) == inject_Z (py_int q + 1) + inject_Z h)%Q)
        by (rewrite !inject_Z_plus; ring).
      rewrite E. apply Qplus_lt_l. exact (proj2 (Hq q)). }
    rewrite <- Zlt_Qlt in C. lia.
Qed.


Section Cover.
Variables (sc : option Z) (level w h : Z).
Hypothesis Hw : 0 < w.
Hypothesis Hh : 0 < h.
Hypothesis tile : forall x y x' y',
  (Qabs x < 160000)%Q -> (Qabs y < 300000)%Q ->
  (Qabs x' < 160000)%Q -> (Qabs y' < 300000)%Q ->
  py_int x / w = py_int x' / w -> py_int (- y) / h = py_int (- y') / h ->
  get_code x y sc level = get_code x' y' sc level.

Let Tx (x : Q) : Z := py_int x / w.
Let Ty (y : Q) : Z := py_int (- y) / h.

Lemma Tx_mono a b : (a <= b)%Q -> Tx a <= Tx b.
Proof. intro H. unfold Tx. apply Z.div_le_mono; [lia | apply py_int_mono, H]. Qed.

Lemma Ty_mono a b : (a <= b)%Q -> Ty b <= Ty a.
Proof.
  intro H. unfold Ty. apply Z.div_le_mono; [lia|]. apply py_int_mono.
  apply Qopp_le_compat, H.
Qed.

Lemma Tx_step x dx : (dx == inject_Z w)%Q -> Tx (x + dx) <= Tx x + 1.
Proof.
  intro E. unfold Tx. rewrite (py_int_compat (x + dx) (x + inject_Z w)) by (rewrite E; reflexivity).
  pose proof (py_int_step x w ltac:(lia)) as S.
  rewrite <- (Z.div_add (py_int x) 1 w) by lia. apply Z.div_le_mono; lia.
Qed.

Lemma Ty_step y dy : (dy == inject_Z h)%Q -> Ty y - 1 <= Ty (y + dy).
Proof.
  intro E. unfold Ty.
  rewrite (py_int_compat (- y) (- (y + dy) + inject_Z h)) by (rewrite E; ring).
  pose proof (py_int_step (- (y + dy)) h ltac:(lia)) as S.
  enough (py_int (- (y + dy) + inject_Z h) / h <= py_int (- (y + dy)) / h + 1) by lia.
  rewrite <- (Z.div_add (py_int (- (y + dy))) 1 h) by lia. apply Z.div_le_mono; lia.
Qed.

Lemma codes_column_head fuel x y y1 dy cs :
  codes_column fuel x y y1 dy sc level = Some cs ->
  exists c r, get_code x y sc level = Some c /\ cs = c :: r.
Proof.
  destruct fuel as [|f]; cbn [codes_column]; [discriminate|].
  destruct (get_code x y sc level) as [c|]; [|discriminate].
  destruct (qlt y1 y); intro H.
  - injection H as <-. eauto.
  - destruct (codes_column f x (y + dy)%Q y1 dy sc level); cbn in H; [|discriminate].
    injection H as <-. eauto.
Qed.

Lemma codes_rows_head fuel fy x x1 y0 y1 dx dy codes :
  codes_rows fuel fy x x1 y0 y1 dx dy sc level = Some codes ->
  exists cs r, codes_column fy x y0 y1 dy sc level = Some cs /\ codes = cs ++ r.
Proof.
  destruct fuel as [|f]; cbn [codes_rows]; [discriminate|].
  destruct (codes_column fy x y0 y1 dy sc level) as [cs|]; [|discriminate].
  destruct (qlt x1 x); intro H.
  - injection H as <-. exists cs, []. rewrite app_nil_r. auto.
  - destruct (codes_rows f fy (x + dx)%Q x1 y0 y1 dx dy sc level); cbn in H; [|discriminate].
    injection H as <-. eauto.
Qed.

Lemma qlt_true a b : qlt a b = true -> (a < b)%Q.
Proof. apply PipelineFacts.qlt_spec. Qed.

Lemma codes_column_cover fuel x y y1 dy cs px py :
  (dy == inject_Z h)%Q ->
  codes_column fuel x y y1 dy sc level = Some cs ->
  Tx px = Tx x -> (Qabs px < 160000)%Q -> (Qabs py < 300000)%Q ->
  (y <= py <= y1)%Q ->
  exists c, get_code px py sc level = Some c /\ In c cs.
Proof.
  intros Edy. revert y cs. induction fuel as [|f IH]; intros y cs H Hx Hpx Hpy [Hy1 Hy2];
    [discriminate|].
  pose proof H as H0. apply codes_column_head in H0. destruct H0 as (c0 & r0 & G & ->).
  destruct (get_code_range _ _ _ _ _ G) as [Rx Ry].
  destruct (Z.eq_dec (Ty py) (Ty y)) as [Ey|Ny].
  - exists c0. split; [|left; reflexivity].
    rewrite (tile px py x y Hpx Hpy Rx Ry Hx Ey). exact G.
  - cbn [codes_column] in H. rewrite G in H.
    destruct (qlt y1 y) eqn:Q.
    + exfalso. apply qlt_true in Q. apply (Qlt_not_le _ _ Q). eapply Qle_trans; eassumption.
    + destruct (codes_column f x (y + dy)%Q y1 dy sc level) as [cs'|] eqn:R; cbn in H;
        [|discriminate].
      injection H as E. subst r0.
      destruct (Qlt_le_dec py (y + dy)) as [Lt|Le].
      * destruct (codes_column_head _ _ _ _ _ _ R) as (c1 & r1 & G1 & ->).
        destruct (get_code_range _ _ _ _ _ G1) as [Rx1 Ry1].
        pose proof (Ty_mono _ _ Hy1). pose proof (Ty_mono _ _ (Qlt_le_weak _ _ Lt)).
        pose proof (Ty_step y dy Edy).
        exists c1. split; [|right; left; reflexivity].
        rewrite (tile px py x (y + dy) Hpx Hpy Rx1 Ry1 Hx) by (fold (Ty py) (Ty (y + dy)); lia).
        exact G1.
      * destruct (IH (y + dy)%Q cs' R Hx Hpx Hpy (conj Le Hy2)) as (c & Gc & Ic).
        exists c. split; [exact Gc | right; exact Ic].
Qed.

Lemma codes_rows_cover fx fy x x1 y0 y1 dx dy codes px py :
  (dx == inject_Z w)%Q -> (dy == inject_Z h)%Q ->
  codes_rows fx fy x x1 y0 y1 dx dy sc level = Some codes ->
  (x <= px <= x1)%Q -> (y0 <= py <= y1)%Q ->
  (Qabs px < 160000)%Q -> (Qabs py < 300000)%Q ->
  exists c, get_code px py sc level = Some c /\ In c codes.
Proof.
  intros Edx Edy. revert x codes. induction fx as [|f IH]; intros x codes H [Hx1 Hx2] Hy Hpx Hpy;
    [discriminate|].
  cbn [codes_rows] in H.
  destruct (codes_column fy x y0 y1 dy sc level) as [cs|] eqn:C; [|discriminate].
  destruct (Z.eq_dec (Tx px) (Tx x)) as [Ex|Nx].
  - destruct (codes_column_cover fy x y0 y1 dy cs px py Edy C Ex Hpx Hpy Hy) as (c & Gc & Ic).
    exists c. split; [exact Gc|].
    destruct (qlt x1 x); [injection H as <-; exact Ic|].
    destruct (codes_rows f fy (x + dx)%Q x1 y0 y1 dx dy sc level); cbn in H; [|discriminate].
    injection H as <-. apply in_or_app. left. exact Ic.
  - destruct (qlt x1 x) eqn:Q.
    + exfalso. apply qlt_true in Q. apply (Qlt_not_le _ _ Q). eapply Qle_trans; eassumption.
    + destruct (codes_rows f fy (x + dx)%Q x1 y0 y1 dx dy sc level) as [rest|] eqn:R; cbn in H;
        [|discriminate].
      injection H as <-.
      destruct (Qlt_le_dec px (x + dx)) as [Lt|Le].
      * destruct (codes_rows_head _ _ _ _ _ _ _ _ _ R) as (cs1 & r1 & C1 & ->).
        pose proof (Tx_mono _ _ Hx1). pose proof (Tx_mono _ _ (Qlt_le_weak _ _ Lt)).
        pose proof (Tx_step x dx Edx).
        destruct (codes_column_cover fy (x + dx) y0 y1 dy cs1 px py Edy C1
                    ltac:(fold (Tx px) (Tx (x + dx)); lia) Hpx Hpy Hy) as (c & Gc & Ic).
        exists c. split; [exact Gc|]. apply in_or_app. right. apply in_or_app. left. exact Ic.
      * destruct (IH (x + dx)%Q rest R (conj Le Hx2) Hy Hpx Hpy) as (c & Gc & Ic).
        exists c. split; [exact Gc|]. apply in_or_app. right. exact Ic.
Qed.

End Cover.

Lemma swap_bounds a b p :
  (Qmin a b <= p <= Qmax a b)%Q ->
  let '(a', b') := if qlt b a then (b, a) else (a, b) in (a' <= p <= b')%Q.
Proof.
  intros [H1 H2]. destruct (qlt b a) eqn:Q.
  - apply PipelineFacts.qlt_spec in Q.
    rewrite Q.min_r in H1 by (apply Qlt_le_weak, Q).
    rewrite Q.max_l in H2 by (apply Qlt_le_weak, Q). split; assumption.
  - assert (Hab : (a <= b)%Q).
    { apply Qnot_lt_le. intro C. apply PipelineFacts.qlt_spec in C. congruence. }
    rewrite Q.min_l in H1 by exact Hab. rewrite Q.max_r in H2 by exact Hab. split; assumption.
Qed.

Lemma level_steps level :
  existsb (Z.eqb level) LEVELS = true ->
  exists w h,
    In (level, w, h) [(50000, 40000, 30000); (5000, 4000, 3000); (2500, 2000, 1500);
                      (1000, 800, 600); (500, 400, 300); (250, 200, 150); (50, 40, 30)] /\
    (inject_Z (40000 * level) / 50000 == inject_Z w)%Q /\
    (inject_Z (30000 * level) / 50000 == inject_Z h)%Q /\ 0 < w /\ 0 < h.
Proof.
  intro L. apply existsb_exists in L as [l [Il El]]. apply Z.eqb_eq in El. subst l.
  unfold LEVELS in Il.
  repeat (destruct Il as [<-|Il];
    [eexists _, _; split; [cbn; tauto|]; split; [reflexivity|]; split; [reflexivity|]; lia|]).
  contradiction Il.
Qed.

(** Every point of the rectangle lies in a sheet whose code is listed:
    when [get_codes_in_area] returns a list, [get_code] of any point of the
    rectangle (within the ranges [get_code] accepts) is in it. *)
Theorem get_codes_in_area_covers fuel x0 y0 x1 y1 sc level codes px py :
  get_codes_in_area fuel x0 y0 x1 y1 sc level = Some codes ->
  (Qmin x0 x1 <= px <= Qmax x0 x1)%Q -> (Qmin y0 y1 <= py <= Qmax y0 y1)%Q ->
  (Qabs px < 160000)%Q -> (Qabs py < 300000)%Q ->
  exists c, get_code px py sc level = Some c /\ In c codes.
Proof.
  intros H Hx Hy Hpx Hpy. unfold get_codes_in_area in H.
  destruct (existsb (Z.eqb level) LEVELS) eqn:L; cbn [negb] in H; [|discriminate].
  destruct (level_steps level L) as (w & h & T & Ew & Eh & Hw & Hh).
  pose proof (swap_bounds _ _ _ Hx) as Bx. pose proof (swap_bounds _ _ _ Hy) as By.
  destruct (if qlt x1 x0 then (x1, x0) else (x0, x1)) as [a0 a1].
  destruct (if qlt y1 y0 then (y1, y0) else (y0, y1)) as [b0 b1].
  exact (codes_rows_cover sc level w h Hw Hh
           (fun x y x' y' => get_code_tile x y x' y' sc level w h T)
           fuel fuel a0 a1 b0 b1 _ _ codes px py Ew Eh H Bx By Hpx Hpy).
Qed.

Lemma get_codes_in_area_covers_witness :
  exists codes c,
    get_codes_in_area 10 32400 (-99000) 32600 (-99300) (Some 8) 500 = Some codes /\
    get_code 32500 (-99100) (Some 8) 500 = Some c /\ In c codes.
Proof.
  destruct (get_codes_in_area 10 32400 (-99000) 32600 (-99300) (Some 8) 500) as [codes|] eqn:E;
    [|vm_compute in E; discriminate E].
  destruct (get_codes_in_area_covers 10 32400 (-99000) 32600 (-99300) (Some 8) 500 codes
              32500 (-99100) E) as (c & G & I);
    [vm_compute; split; discriminate | vm_compute; split; discriminate
    | vm_compute; reflexivity | vm_compute; reflexivity |].
  exists codes, c. split; [reflexivity|]. split; assumption.
Defined.
End AreaFacts.

Module Build3dInitFacts.
Import Zukaku ZukakuFacts Build3dInit.
Local Open Scope Z_scope.

Lemma fmt_d_4_0 (n : nat) : (n <= 19)%nat ->
  fmt_d 4 false (6668 + Z.of_nat n) = fmt_d 0 false (6668 + Z.of_nat n).
Proof. intro H. do 20 (destruct n as [|n]; [reflexivity|]). lia. Qed.

Lemma build3d_crs_ok s : 0 <= s <= 19 -> build3d_crs s = Some (EPSG ++ fmt_d 0 false (6668 + s)).
Proof.
  intro Hs. unfold build3d_crs. replace ((s <? 0) || (s >? 19)) with false; [reflexivity|].
  symmetry. apply orb_false_iff. rewrite Z.gtb_ltb, !Z.ltb_ge. lia.
Qed.

Lemma qabs_inject_lt (x b : Z) : - b < x < b -> (Qabs (inject_Z x) < inject_Z b)%Q.
Proof. intro H. unfold Qabs, Qlt, inject_Z. cbn [Qnum Qden]. lia. Qed.

(** [Build3d] accepts the system codes [0] to [19] and no other; for each,
    the CRS it converts the building to is the one [get_extent] reports
    for the sheets [get_code] gives with that system code, except for
    system code [0], where [Build3d] uses [EPSG:6668] and [get_extent]
    reports no CRS. The levels are those [get_code] supports, [1000]
    included. *)
Theorem build3d_crs_extent (x y : Z) (s : Z) (level : Z) :
  -160000 < x < 160000 -> -300000 < y < 300000 ->
  In level [50000; 5000; 2500; 1000; 500; 250; 50] ->
  (build3d_crs s <> None <-> 0 <= s <= 19) /\
  (0 <= s <= 19 ->
   exists code crs, get_code (inject_Z x) (inject_Z y) (Some s) level = Some code /\
     build3d_crs s = Some crs /\
     match get_extent code with
     | Some (_, _, _, _, c, _) => c = if s =? 0 then None else Some crs
     | None => False
     end).
Proof.
  intros Hx Hy Hl. split.
  - split.
    + intro H. destruct (Z.le_gt_cases 0 s) as [H0|H0]; [destruct (Z.le_gt_cases s 19) as [H1|H1]|].
      * lia.
      * exfalso. apply H. unfold build3d_crs.
        replace (s >? 19) with true by (symmetry; apply Z.gtb_lt; lia). rewrite orb_true_r. reflexivity.
      * exfalso. apply H. unfold build3d_crs.
        replace (s <? 0) with true by (symmetry; apply Z.ltb_lt; lia). reflexivity.
    + intro Hs. rewrite (build3d_crs_ok s Hs). discriminate.
  - intro Hs.
    assert (Hcrs : forall code, match get_extent code with
                   | Some (_, _, _, _, c, _) =>
                       c = (if s =? 0 then None else Some (EPSG ++ fmt_d 4 false (6668 + s)))
                   | None => False end ->
                   match get_extent code with
                   | Some (_, _, _, _, c, _) =>
                       c = (if s =? 0 then None else Some (EPSG ++ fmt_d 0 false (6668 + s)))
                   | None => False end).
    { intro code. destruct (get_extent code) as [[[[[[x0 y0] x1] y1] c] lv]|]; [|tauto].
      intros ->. destruct (s =? 0); [reflexivity|].
      rewrite <- (Z2Nat.id s) by lia. rewrite fmt_d_4_0 by lia. reflexivity. }
    destruct (Z.eq_dec level 1000) as [->|Hl1000].
    + destruct (get_code_level1000_all (inject_Z x) (inject_Z y) (Some s)
                  (qabs_inject_lt x 160000 Hx) (qabs_inject_lt y 300000 Hy) ltac:(cbn; lia))
        as (code5 & G5 & G1 & _ & _ & E).
      destruct (get_code_extent_all x y (Some s) 5000 Hx Hy ltac:(cbn; tauto) ltac:(cbn; lia))
        as (code & G & X).
      rewrite G5 in G. injection G as <-.
      eexists _, _. split; [exact G1|]. split; [exact (build3d_crs_ok s Hs)|].
      rewrite E. apply Hcrs. destruct (get_extent code5) as [[[[[[x0 y0] x1] y1] c] lv]|];
        [exact (proj1 X) | contradiction X].
    + assert (Hl' : In level [50000; 5000; 2500; 500; 250; 50]).
      { cbn in Hl |- *.
        destruct Hl as [H|[H|[H|[H|[H|[H|[H|[]]]]]]]]; subst level;
          [left | right; left | right; right; left | contradiction Hl1000; reflexivity
          | do 3 right; left | do 4 right; left | do 5 right; left]; reflexivity. }
      destruct (get_code_extent_all x y (Some s) level Hx Hy Hl' ltac:(cbn; lia))
        as (code & G & X).
      exists code, (EPSG ++ fmt_d 0 false (6668 + s)).
      split; [exact G|]. split; [exact (build3d_crs_ok s Hs)|].
      apply Hcrs. destruct (get_extent code) as [[[[[[x0 y0] x1] y1] c] lv]|];
        [exact (proj1 X) | contradiction X].
Qed.

Lemma build3d_crs_extent_witness :
  (build3d_crs 9 <> None <-> 0 <= 9 <= 19) /\
  (0 <= 9 <= 19 ->
   exists code crs, get_code (inject_Z 32400) (inject_Z (-129000)) (Some 9) 1000 = Some code /\
     build3d_crs 9 = Some crs /\
     match get_extent code with
     | Some (_, _, _, _, c, _) => c = if 9 =? 0 then None else Some crs
     | None => False
     end).
Proof.
  apply (build3d_crs_extent 32400 (-129000) 9 1000); [lia | lia | cbn; tauto].
Defined.

End Build3dInitFacts.
